(** * hash-orbit: a consistent-hashing ring with virtual nodes

    Shallow embedding of the class [HashOrbit] of [src/index.ts], in the
    revision that validates identifiers and serializes the ring, and the
    properties its specification states about it.

    Modelling choices, following the source:
    - a JavaScript [Map<number, string>] keeps its entries in insertion
      order, and both [nodes] and [fromJSON] observe that order; it is an
      association list with distinct keys ([JsMap]);
    - a JavaScript [Set<string>] is a duplicate-free list in insertion
      order ([JsSet]);
    - positions, [replicas] and [count] are integers ([Z]), the values the
      specification gives them (a JavaScript number may also be a
      fraction); array indices are [nat];
    - a string is a [string], one character per code unit;
    - [throw new Error(msg)] is the result [Throw msg];
    - [hash32] comes from the package [murmur-hash], which is not part of
      the repository: it is a variable of the development, any
      deterministic function from strings to integers. *)

From Stdlib Require Import ZArith String DecimalString Lia.
From stdpp Require Import base decidable option numbers list sets sorting strings.
From Equations Require Import Equations.

Local Open Scope string_scope.
Local Open Scope list_scope.
Local Open Scope Z_scope.

(** ** Results of operations that may throw *)

Inductive result (A : Type) : Type :=
  | Ok (a : A)
  | Throw (msg : string).
Arguments Ok {A} a.
Arguments Throw {A} msg.

Global Instance result_ret : MRet result := @Ok.
Global Instance result_bind : MBind result := λ A B f r,
  match r with
  | Ok a => f a
  | Throw msg => Throw msg
  end.

(** ** JavaScript [Map<K, V>]: insertion-ordered, one entry per key *)

Module JsMap.
Section js_map.
Context {K V : Type} `{EqDecision K}.

(** [m.get(k)] *)
Fixpoint get (k : K) (m : list (K * V)) : option V :=
  match m with
  | [] => None
  | (k', v') :: m' => if decide (k = k') then Some v' else get k m'
  end.

(** [m.set(k, v)]: an existing key keeps its place, a new key goes last *)
Fixpoint set (k : K) (v : V) (m : list (K * V)) : list (K * V) :=
  match m with
  | [] => [(k, v)]
  | (k', v') :: m' =>
      if decide (k = k') then (k, v) :: m' else (k', v') :: set k v m'
  end.

(** [m.delete(k)] *)
Fixpoint delete (k : K) (m : list (K * V)) : list (K * V) :=
  match m with
  | [] => []
  | (k', v') :: m' =>
      if decide (k = k') then m' else (k', v') :: delete k m'
  end.

(** [[...m.keys()]], [[...m.values()]] and [m.size] *)
Definition keys (m : list (K * V)) : list K := m.*1.
Definition values (m : list (K * V)) : list V := m.*2.
Definition size (m : list (K * V)) : nat := length m.
End js_map.
End JsMap.

(** ** JavaScript [Set<T>]: insertion-ordered, no duplicates *)

Module JsSet.
Section js_set.
Context {T : Type} `{EqDecision T}.

(** [s.has(x)] *)
Definition has (x : T) (s : list T) : bool := bool_decide (x ∈ s).

(** [s.add(x)] *)
Definition add (x : T) (s : list T) : list T :=
  if has x s then s else s ++ [x].

(** [new Set(iterable)] *)
Definition of_list (l : list T) : list T := foldl (λ s x, add x s) [] l.

Definition size (s : list T) : nat := length s.
End js_set.
End JsSet.

(** ** The ring *)

(** [HashOrbitOptions]: [replicas] is optional. *)
Record HashOrbitOptions := { opt_replicas : option Z }.

(** The private fields of [HashOrbit]. *)
Record HashOrbit := {
  ring : list (Z * string);
  sortedKeys : list Z;
  replicas : Z
}.

(** The object [toJSON] returns and [fromJSON] reads. *)
Record RingJSON := { json_nodes : list string; json_replicas : Z }.

(** [constructor(options)]: [options.replicas ?? 150], an empty map and an
    empty index. *)
Definition constructor (options : HashOrbitOptions) : HashOrbit :=
  {| ring := [];
     sortedKeys := [];
     replicas := default 150 (opt_replicas options) |}.

(** The messages [`${name} cannot be empty`] and
    [`${name} exceeds maximum length of 1000 characters`]. *)
Definition empty_message (name : string) : string :=
  name +:+ " cannot be empty".
Definition too_long_message (name : string) : string :=
  name +:+ " exceeds maximum length of 1000 characters".

(** [validateIdentifier(value, name)]: [!value] holds of the empty string
    only. *)
Definition validateIdentifier (value name : string) : result unit :=
  if decide (value = "") then Throw (empty_message name)
  else if bool_decide (1000 < Z.of_nat (String.length value))
  then Throw (too_long_message name)
  else Ok tt.

(** [[...m.keys()].sort((a, b) => a - b)]: ascending numeric order. *)
Definition sort_keys (m : list (Z * string)) : list Z :=
  merge_sort Z.le (JsMap.keys m).

(** The virtual-node key [`${node}:${i}`]. *)
Definition virtual_key (node : string) (i : nat) : string :=
  node +:+ ":" +:+ NilZero.string_of_uint (Nat.to_uint i).

(** The values [i] takes in [for (let i = 0; i < replicas; i++)]. *)
Definition replica_indices (r : Z) : list nat := seq 0 (Z.to_nat r).

(** [this.sortedKeys[mid]! < target]: an out-of-range read is [undefined],
    and [undefined < target] is false. *)
Definition key_below (keys : list Z) (mid : nat) (target : Z) : bool :=
  match keys !! mid with
  | Some k => bool_decide (k < target)
  | None => false
  end.

(** [binarySearch]'s loop; [lo] and [hi] are the source's [left] and
    [right], [(lo + hi) / 2] is [Math.floor((left + right) / 2)]. *)
Equations? binarySearch_loop (keys : list Z) (target : Z) (lo hi : nat) : nat
  by wf (hi - lo)%nat lt :=
  binarySearch_loop keys target lo hi with lt_dec lo hi => {
    | right _ := lo
    | left _ with key_below keys ((lo + hi) / 2)%nat target => {
        | true := binarySearch_loop keys target ((lo + hi) / 2 + 1)%nat hi
        | false := binarySearch_loop keys target lo ((lo + hi) / 2)%nat }
  }.
Proof.
  all: change (Nat.divmod (lo + hi) 1 0 1).1 with ((lo + hi) / 2)%nat.
  all: assert ((lo + hi) / 2 < hi)%nat
    by (apply Nat.Div0.div_lt_upper_bound; lia).
  all: assert (lo <= (lo + hi) / 2)%nat
    by (apply Nat.div_le_lower_bound; lia).
  all: lia.
Qed.

Section HashOrbit.
(** [hash32] of [murmur-hash]. *)
Variable hash32 : string → Z.

(** The positions [add] writes and [remove] deletes for [node], in loop
    order. *)
Definition positions (r : Z) (node : string) : list Z :=
  (λ i, hash32 (virtual_key node i)) <$> replica_indices r.

(** The loop of [add]: [this.ring.set(position, node)] for each [i]. *)
Definition add_loop (node : string) (m : list (Z * string))
    (idxs : list nat) : list (Z * string) :=
  foldl (λ m i, JsMap.set (hash32 (virtual_key node i)) node m) m idxs.

(** The loop of [remove]: [this.ring.delete(position)] for each [i]. *)
Definition remove_loop (node : string) (m : list (Z * string))
    (idxs : list nat) : list (Z * string) :=
  foldl (λ m i, JsMap.delete (hash32 (virtual_key node i)) m) m idxs.

(** [add(node)]: validate, write the positions, rebuild the index. *)
Definition add (st : HashOrbit) (node : string) : result HashOrbit :=
  _ ← validateIdentifier node "Node identifier";
  let m := add_loop node (ring st) (replica_indices (replicas st)) in
  Ok {| ring := m; sortedKeys := sort_keys m; replicas := replicas st |}.

(** [remove(node)]: validate, delete the positions, rebuild the index. *)
Definition remove (st : HashOrbit) (node : string) : result HashOrbit :=
  _ ← validateIdentifier node "Node identifier";
  let m := remove_loop node (ring st) (replica_indices (replicas st)) in
  Ok {| ring := m; sortedKeys := sort_keys m; replicas := replicas st |}.

(** [binarySearch(target)], from [left = 0] and
    [right = this.sortedKeys.length]. *)
Definition binarySearch (st : HashOrbit) (target : Z) : nat :=
  binarySearch_loop (sortedKeys st) target 0 (length (sortedKeys st)).

(** [if (idx >= this.sortedKeys.length) idx = 0] *)
Definition wrap (st : HashOrbit) (idx : nat) : nat :=
  if decide (length (sortedKeys st) ≤ idx)%nat then 0%nat else idx.

(** [this.ring.get(this.sortedKeys[idx]!)]; reading past the end gives
    [undefined], which is no key of the map. *)
Definition node_at (st : HashOrbit) (idx : nat) : option string :=
  k ← sortedKeys st !! idx; JsMap.get k (ring st).

(** [get(key)]; [None] is [undefined]. *)
Definition get (st : HashOrbit) (key : string) : result (option string) :=
  _ ← validateIdentifier key "Key";
  if decide (JsMap.size (ring st) = 0%nat) then Ok None
  else
    let position := hash32 key in
    let idx := wrap st (binarySearch st position) in
    Ok (node_at st idx).

(** One turn of the loop of [getN], from the wrap of [idx] to the push;
    [node && !seen.has(node)] rejects [undefined] and the empty string. *)
Definition getN_visit (st : HashOrbit) (idx : nat)
    (acc : list string * list string) : list string * list string :=
  match node_at st (wrap st idx) with
  | Some node =>
      if bool_decide (node ≠ "") && negb (JsSet.has node acc.1)
      then (JsSet.add node acc.1, acc.2 ++ [node])
      else acc
  | None => acc
  end.

(** The loop of [getN]; [n] is [this.sortedKeys.length - i], the number of
    turns left, and [acc] is [(seen, result)]. [idx++] follows the wrap. *)
Fixpoint getN_loop (st : HashOrbit) (count : Z) (n : nat) (idx : nat)
    (acc : list string * list string) : list string :=
  match n with
  | O => acc.2
  | S n' =>
      if bool_decide (Z.of_nat (length acc.2) < count)
      then getN_loop st count n' (S (wrap st idx)) (getN_visit st idx acc)
      else acc.2
  end.

(** [getN(key, count)] *)
Definition getN (st : HashOrbit) (key : string) (count : Z)
    : result (list string) :=
  _ ← validateIdentifier key "Key";
  if decide (JsMap.size (ring st) = 0%nat ∨ count ≤ 0) then Ok []
  else
    let position := hash32 key in
    let idx := binarySearch st position in
    Ok (getN_loop st count (length (sortedKeys st)) idx ([], [])).

(** [getUniqueNodes()]: [new Set(this.ring.values())] *)
Definition getUniqueNodes (st : HashOrbit) : list string :=
  JsSet.of_list (JsMap.values (ring st)).

(** The getter [size] *)
Definition size (st : HashOrbit) : nat := JsSet.size (getUniqueNodes st).

(** The getter [nodes]: [Array.from(this.getUniqueNodes())] *)
Definition nodes (st : HashOrbit) : list string := getUniqueNodes st.

(** [toJSON()] *)
Definition toJSON (st : HashOrbit) : RingJSON :=
  {| json_nodes := nodes st; json_replicas := replicas st |}.

(** [for (const node of json.nodes) ring.add(node)]; an error of [add]
    leaves the loop. *)
Fixpoint add_all (st : HashOrbit) (ns : list string) : result HashOrbit :=
  match ns with
  | [] => Ok st
  | node :: ns' => st' ← add st node; add_all st' ns'
  end.

(** [HashOrbit.fromJSON(json)] *)
Definition fromJSON (json : RingJSON) : result HashOrbit :=
  add_all (constructor {| opt_replicas := Some (json_replicas json) |})
    (json_nodes json).
End HashOrbit.

(** A deterministic stand-in for [hash32], used for concrete runs: the sum
    of the character codes. *)
Fixpoint code_sum (s : string) : Z :=
  match s with
  | EmptyString => 0
  | String c s' => Z.of_nat (Ascii.nat_of_ascii c) + code_sum s'
  end.

Definition checksum (s : string) : Z := code_sum s `mod` 2 ^ 32.

(** ** Histories and reachable states *)

Inductive op : Type :=
  | OpAdd (node : string)
  | OpRemove (node : string).

Definition op_node (o : op) : string :=
  match o with OpAdd n | OpRemove n => n end.

Section Histories.
Variable hash32 : string → Z.

Definition run_op (st : HashOrbit) (o : op) : result HashOrbit :=
  match o with
  | OpAdd n => add hash32 st n
  | OpRemove n => remove hash32 st n
  end.

(** Runs the calls of [ops] in order; a call that throws ends the run. The
    states a ring can be in are those [run_ops (constructor options) ops]
    returns: a call that throws changes nothing. *)
Fixpoint run_ops (st : HashOrbit) (ops : list op) : result HashOrbit :=
  match ops with
  | [] => Ok st
  | o :: ops' => st' ← run_op st o; run_ops st' ops'
  end.
End Histories.

(** An identifier the operations accept. *)
Definition valid_identifier (s : string) : Prop :=
  s ≠ "" ∧ (String.length s ≤ 1000)%nat.

(** [f] validates its argument under the parameter name [name]: it throws
    the empty-identifier error exactly on the empty string, the too-long
    error exactly above 1000 characters, and returns otherwise. *)
Definition validates {A : Type} (f : string → result A) (name : string)
    : Prop :=
  ∀ s,
    (f s = Throw (empty_message name) ↔ s = "")
    ∧ (f s = Throw (too_long_message name) ↔ (1000 < String.length s)%nat)
    ∧ ((∃ a, f s = Ok a) ↔ s ≠ "" ∧ (String.length s ≤ 1000)%nat).

(** The invariant of the private fields. *)
Record ring_inv (st : HashOrbit) : Prop := {
  inv_keys : NoDup (JsMap.keys (ring st));
  inv_index : sortedKeys st = sort_keys (ring st);
  inv_values : Forall valid_identifier (JsMap.values (ring st))
}.

(** [i] is the lower bound of [target] in [keys]: the first index whose key
    is not below [target], or the length when every key is below. *)
Definition lower_bound (keys : list Z) (target : Z) (i : nat) : Prop :=
  (i ≤ length keys)%nat
  ∧ (∀ j k, (j < i)%nat → keys !! j = Some k → k < target)
  ∧ (∀ j k, (i ≤ j)%nat → keys !! j = Some k → target ≤ k).

(** No two of the nodes of [U] share a position. *)
Definition collision_free (hash32 : string → Z) (r : Z) (U : list string)
    : Prop :=
  ∀ n1 n2 p, n1 ∈ U → n2 ∈ U →
    p ∈ positions hash32 r n1 → p ∈ positions hash32 r n2 → n1 = n2.

(** The entry map holds exactly the positions of the nodes of [S], each
    owned by its node. *)
Definition placed (hash32 : string → Z) (r : Z) (S : list string)
    (m : list (Z * string)) : Prop :=
  ∀ p n, JsMap.get p m = Some n ↔ n ∈ S ∧ p ∈ positions hash32 r n.

(** The nodes present after the calls of [ops], from the nodes [S]. *)
Definition present_after (S : list string) (ops : list op) : list string :=
  foldl (λ S o, match o with
                | OpAdd n => n :: S
                | OpRemove n => filter (λ x, x ≠ n) S
                end) S ops.

(** The ring rebuilt from [toJSON()] answers as [R] does. *)
Definition roundtrip_agrees (hash32 : string → Z) (R : HashOrbit) : Prop :=
  ∃ R', fromJSON hash32 (toJSON R) = Ok R'
    ∧ (∀ key, valid_identifier key → get hash32 R' key = get hash32 R key)
    ∧ (∀ key count, valid_identifier key →
         getN hash32 R' key count = getN hash32 R key count)
    ∧ size R' = size R
    ∧ nodes R' ≡ₚ nodes R.

(** The invariant of the loop of [getN] on [(seen, result)]: [result] has no
    duplicates, [seen] holds its elements, and they are nodes of the ring. *)
Record walk_inv (st : HashOrbit) (acc : list string * list string) : Prop := {
  walk_NoDup : NoDup acc.2;
  walk_seen : ∀ x, x ∈ acc.1 ↔ x ∈ acc.2;
  walk_nodes : ∀ x, x ∈ acc.2 → x ∈ JsMap.values (ring st)
}.

(** The indices [n] turns of the loop of [getN] visit from [idx], in an
    index of [len] positions: up to the end, then from the start. *)
Definition visited (len n idx j : nat) : Prop :=
  (idx ≤ j ∧ j < idx + n ∧ j < len)%nat ∨ (j + len < idx + n)%nat.

(** ** Further definitions: the rest of the class and what lookups mean *)

(** How a template literal prints an integer. *)
Definition number_to_string (z : Z) : string :=
  NilZero.string_of_int (Z.to_int z).

(** [toString()] *)
Definition toString (st : HashOrbit) : string :=
  "HashOrbit(nodes=" +:+ number_to_string (Z.of_nat (size st))
  +:+ ", positions=" +:+ number_to_string (Z.of_nat (length (sortedKeys st)))
  +:+ ", replicas=" +:+ number_to_string (replicas st) +:+ ")".

(** [p] is where a walk from [t] along the positions [ks] stops: the least
    position [>= t], or, when there is none, the least position of all. *)
Definition successor (ks : list Z) (t p : Z) : Prop :=
  p ∈ ks
  ∧ ((t ≤ p ∧ ∀ q, q ∈ ks → t ≤ q → p ≤ q)
     ∨ ((∀ q, q ∈ ks → q < t) ∧ ∀ q, q ∈ ks → p ≤ q)).

(** Every entry of the map sits on a position of its own node. *)
Definition owned (hash32 : string → Z) (st : HashOrbit) : Prop :=
  ∀ p n, JsMap.get p (ring st) = Some n →
         p ∈ positions hash32 (replicas st) n.

(** ** The callers of the examples

    [examples/sticky-load-balancing.ts] and [examples/cache-replication.ts]
    keep a ring beside a [Map] from node identifiers to objects. Their
    synchronous methods are embedded here; what they print with
    [console.log] is left out, and so are the methods that await promises
    ([routeRequest], [handleRequest], the cache's [set], [get] and
    [delete]). *)

(** The fields of the interface [AppServer]; [MockAppServer] also keeps a
    private store of sessions that only [handleRequest] touches. *)
Record AppServer := {
  server_id : string;
  healthy : bool;
  activeConnections : Z
}.

(** [new MockAppServer(id)] *)
Definition MockAppServer (id : string) : AppServer :=
  {| server_id := id; healthy := true; activeConnections := 0 |}.

(** The private fields of [StickyLoadBalancer]. *)
Record StickyLoadBalancer := {
  lb_ring : HashOrbit;
  lb_servers : list (string * AppServer)
}.

(** [new StickyLoadBalancer(replicas)], [replicas] defaulting to 150. *)
Definition newStickyLoadBalancer (replicas : option Z) : StickyLoadBalancer :=
  {| lb_ring := constructor {| opt_replicas := Some (default 150 replicas) |};
     lb_servers := [] |}.

(** The fallback loop of [getServerForSession]: the first healthy server in
    the order of [this.servers.values()]. *)
Fixpoint first_healthy (l : list AppServer) : option AppServer :=
  match l with
  | [] => None
  | s :: l' => if healthy s then Some s else first_healthy l'
  end.

(** The fields of [MockCacheNode]. *)
Record CacheNode := {
  cache_id : string;
  available : bool;
  store : list (string * string)
}.

(** [new MockCacheNode(id)] *)
Definition MockCacheNode (id : string) : CacheNode :=
  {| cache_id := id; available := true; store := [] |}.

(** The private fields of [ReplicatedCache]. *)
Record ReplicatedCache := {
  rc_ring : HashOrbit;
  rc_nodes : list (string * CacheNode);
  replicationFactor : Z
}.

(** [new ReplicatedCache(replicationFactor, replicas)], defaulting to 2 and
    150. *)
Definition newReplicatedCache (factor replicas : option Z) : ReplicatedCache :=
  {| rc_ring := constructor {| opt_replicas := Some (default 150 replicas) |};
     rc_nodes := [];
     replicationFactor := default 2 factor |}.

Section Callers.
Variable hash32 : string → Z.

(** [addServer(serverId)]: an error of [ring.add] leaves before the map is
    written. *)
Definition addServer (lb : StickyLoadBalancer) (serverId : string)
    : result StickyLoadBalancer :=
  r ← add hash32 (lb_ring lb) serverId;
  Ok {| lb_ring := r;
        lb_servers := JsMap.set serverId (MockAppServer serverId)
                        (lb_servers lb) |}.

(** [removeServer(serverId)] *)
Definition removeServer (lb : StickyLoadBalancer) (serverId : string)
    : result StickyLoadBalancer :=
  r ← remove hash32 (lb_ring lb) serverId;
  Ok {| lb_ring := r;
        lb_servers := JsMap.delete serverId (lb_servers lb) |}.

(** [markServerUnhealthy(serverId)]: [server.healthy = false] on the object
    the map holds, which keeps its place. *)
Definition markServerUnhealthy (lb : StickyLoadBalancer) (serverId : string)
    : StickyLoadBalancer :=
  match JsMap.get serverId (lb_servers lb) with
  | Some server =>
      {| lb_ring := lb_ring lb;
         lb_servers :=
           JsMap.set serverId
             {| server_id := server_id server;
                healthy := false;
                activeConnections := activeConnections server |}
             (lb_servers lb) |}
  | None => lb
  end.

(** The first part of [getServerForSession]: the server of the primary
    identifier, when the identifier is truthy and [server?.healthy]. *)
Definition primary_server (lb : StickyLoadBalancer)
    (primaryServerId : option string) : option AppServer :=
  match primaryServerId with
  | Some id =>
      if bool_decide (id ≠ "") then
        match JsMap.get id (lb_servers lb) with
        | Some server => if healthy server then Some server else None
        | None => None
        end
      else None
  | None => None
  end.

(** [getServerForSession(sessionId)]; [None] is [undefined]. *)
Definition getServerForSession (lb : StickyLoadBalancer) (sessionId : string)
    : result (option AppServer) :=
  primaryServerId ← get hash32 (lb_ring lb) sessionId;
  match primary_server lb primaryServerId with
  | Some server => Ok (Some server)
  | None => Ok (first_healthy (JsMap.values (lb_servers lb)))
  end.

(** [addNode(nodeId)] *)
Definition addNode (rc : ReplicatedCache) (nodeId : string)
    : result ReplicatedCache :=
  r ← add hash32 (rc_ring rc) nodeId;
  Ok {| rc_ring := r;
        rc_nodes := JsMap.set nodeId (MockCacheNode nodeId) (rc_nodes rc);
        replicationFactor := replicationFactor rc |}.

(** [removeNode(nodeId)] *)
Definition removeNode (rc : ReplicatedCache) (nodeId : string)
    : result ReplicatedCache :=
  r ← remove hash32 (rc_ring rc) nodeId;
  Ok {| rc_ring := r;
        rc_nodes := JsMap.delete nodeId (rc_nodes rc);
        replicationFactor := replicationFactor rc |}.

(** [markNodeUnavailable(nodeId)] *)
Definition markNodeUnavailable (rc : ReplicatedCache) (nodeId : string)
    : ReplicatedCache :=
  match JsMap.get nodeId (rc_nodes rc) with
  | Some node =>
      {| rc_ring := rc_ring rc;
         rc_nodes :=
           JsMap.set nodeId
             {| cache_id := cache_id node;
                available := false;
                store := store node |}
             (rc_nodes rc);
         replicationFactor := replicationFactor rc |}
  | None => rc
  end.

(** [getReplicaNodes(key)]: the identifiers of [getN], each looked up in
    the map, those without a node dropped. *)
Definition getReplicaNodes (rc : ReplicatedCache) (key : string)
    : result (list CacheNode) :=
  nodeIds ← getN hash32 (rc_ring rc) key (replicationFactor rc);
  Ok (omap (λ id, JsMap.get id (rc_nodes rc)) (nodeIds : list string)).

(** The calls that change a load balancer, and a run of them. *)
Inductive lb_op : Type :=
  | LbAdd (serverId : string)
  | LbRemove (serverId : string)
  | LbMarkUnhealthy (serverId : string).

Definition run_lb_op (lb : StickyLoadBalancer) (o : lb_op)
    : result StickyLoadBalancer :=
  match o with
  | LbAdd id => addServer lb id
  | LbRemove id => removeServer lb id
  | LbMarkUnhealthy id => Ok (markServerUnhealthy lb id)
  end.

Fixpoint run_lb_ops (lb : StickyLoadBalancer) (ops : list lb_op)
    : result StickyLoadBalancer :=
  match ops with
  | [] => Ok lb
  | o :: ops' => lb' ← run_lb_op lb o; run_lb_ops lb' ops'
  end.

(** The calls that change a replicated cache's membership, and a run of
    them. *)
Inductive rc_op : Type :=
  | RcAdd (nodeId : string)
  | RcRemove (nodeId : string)
  | RcMarkUnavailable (nodeId : string).

Definition run_rc_op (rc : ReplicatedCache) (o : rc_op)
    : result ReplicatedCache :=
  match o with
  | RcAdd id => addNode rc id
  | RcRemove id => removeNode rc id
  | RcMarkUnavailable id => Ok (markNodeUnavailable rc id)
  end.

Fixpoint run_rc_ops (rc : ReplicatedCache) (ops : list rc_op)
    : result ReplicatedCache :=
  match ops with
  | [] => Ok rc
  | o :: ops' => rc' ← run_rc_op rc o; run_rc_ops rc' ops'
  end.
End Callers.

(** A ring beside a map keyed by node identifier: the ring is well formed,
    every node of the ring has an entry in the map, and every entry is
    filed under the identifier [idf] reads off it. *)
Record beside {V : Type} (hash32 : string → Z) (idf : V → string)
    (r : HashOrbit) (m : list (string * V)) : Prop := {
  beside_ring : ring_inv r;
  beside_owned : owned hash32 r;
  beside_keys : NoDup (JsMap.keys m);
  beside_nodes : ∀ n, n ∈ JsMap.values (ring r) → is_Some (JsMap.get n m);
  beside_ids : ∀ k v, JsMap.get k m = Some v → idf v = k
}.

(** * Properties *)

(** ** The map and the set *)

Section js_map_facts.
Context {K V : Type} `{EqDecision K}.
Implicit Types (m : list (K * V)) (k : K) (v : V).

Lemma get_set k k' v m :
  JsMap.get k' (JsMap.set k v m)
  = if decide (k' = k) then Some v else JsMap.get k' m.
Proof.
  induction m as [|[k0 v0] m IH]; simpl.
  - by repeat case_decide.
  - destruct (decide (k = k0)) as [->|]; simpl; [| rewrite IH];
      repeat case_decide; congruence.
Qed.

Lemma keys_set k v m :
  JsMap.keys (JsMap.set k v m)
  = if decide (k ∈ JsMap.keys m) then JsMap.keys m else JsMap.keys m ++ [k].
Proof.
  unfold JsMap.keys. induction m as [|[k0 v0] m IH]; csimpl.
  - by rewrite ?decide_False by apply not_elem_of_nil.
  - destruct (decide (k = k0)) as [->|Hne]; csimpl.
    + rewrite decide_True; [done | left].
    + rewrite IH. destruct (decide (k ∈ m.*1)) as [Hin|Hin].
      * rewrite decide_True; [done | by right].
      * rewrite decide_False; [done |].
        intros [?|?]%elem_of_cons; done.
Qed.

Lemma NoDup_keys_set k v m :
  NoDup (JsMap.keys m) → NoDup (JsMap.keys (JsMap.set k v m)).
Proof.
  intros Hnd. rewrite keys_set. case_decide as Hin; [done |].
  apply NoDup_app. split_and!; [done | | apply NoDup_singleton].
  intros x Hx ->%list_elem_of_singleton. done.
Qed.

Lemma get_None k m : JsMap.get k m = None ↔ k ∉ JsMap.keys m.
Proof.
  unfold JsMap.keys. induction m as [|[k0 v0] m IH]; simpl.
  - split; [intros _; apply not_elem_of_nil | done].
  - rewrite not_elem_of_cons. case_decide.
    + split; [done | by intros [? _]].
    + rewrite IH. tauto.
Qed.

Lemma get_Some_keys k v m : JsMap.get k m = Some v → k ∈ JsMap.keys m.
Proof.
  intros Hget. destruct (decide (k ∈ JsMap.keys m)) as [|Hn]; [done |].
  apply get_None in Hn. congruence.
Qed.

Lemma keys_get k m : k ∈ JsMap.keys m → is_Some (JsMap.get k m).
Proof.
  intros Hin. destruct (JsMap.get k m) eqn:E; [by eexists |].
  by apply get_None in E.
Qed.

Lemma get_Some_values k v m : JsMap.get k m = Some v → v ∈ JsMap.values m.
Proof.
  unfold JsMap.values. induction m as [|[k0 v0] m IH]; simpl; [done |].
  case_decide; [intros [= ->]; left | intros ?; right; auto].
Qed.

Lemma values_get v m :
  NoDup (JsMap.keys m) → v ∈ JsMap.values m → ∃ k, JsMap.get k m = Some v.
Proof.
  unfold JsMap.values, JsMap.keys.
  induction m as [|[k0 v0] m IH]; simpl.
  - by intros _ ?%elem_of_nil.
  - intros [Hk0 Hnd]%NoDup_cons [->|Hin]%elem_of_cons.
    + exists k0. by rewrite decide_True.
    + destruct (IH Hnd Hin) as [k Hk]. exists k.
      rewrite decide_False; [done |]. intros ->.
      by apply get_Some_keys in Hk.
Qed.

Lemma set_id k v m : JsMap.get k m = Some v → JsMap.set k v m = m.
Proof.
  induction m as [|[k0 v0] m IH]; simpl; [done |].
  case_decide; [by intros [= ->]; subst | intros ?; f_equal; auto].
Qed.

Lemma delete_id k m : JsMap.get k m = None → JsMap.delete k m = m.
Proof.
  induction m as [|[k0 v0] m IH]; simpl; [done |].
  case_decide; [done | intros ?; f_equal; auto].
Qed.

Lemma keys_delete_subseteq k m : JsMap.keys (JsMap.delete k m) ⊆ JsMap.keys m.
Proof.
  unfold JsMap.keys. induction m as [|[k0 v0] m IH]; csimpl; [done |].
  case_decide; csimpl; intros x Hx.
  - by right.
  - apply elem_of_cons in Hx as [->|Hx]; [left | right; by apply IH].
Qed.

Lemma NoDup_keys_delete k m :
  NoDup (JsMap.keys m) → NoDup (JsMap.keys (JsMap.delete k m)).
Proof.
  unfold JsMap.keys. induction m as [|[k0 v0] m IH]; simpl; [done |].
  intros [Hk0 Hnd]%NoDup_cons. case_decide; simpl; [done |].
  apply NoDup_cons. split; [| auto].
  intros Hin. by apply (keys_delete_subseteq k m) in Hin.
Qed.

Lemma get_delete k k' m :
  NoDup (JsMap.keys m) →
  JsMap.get k' (JsMap.delete k m)
  = if decide (k' = k) then None else JsMap.get k' m.
Proof.
  unfold JsMap.keys. induction m as [|[k0 v0] m IH]; csimpl.
  - by case_decide.
  - intros [Hk0 Hnd]%NoDup_cons.
    destruct (decide (k = k0)) as [->|Hne]; csimpl.
    + destruct (decide (k' = k0)) as [->|]; [| done].
      by apply get_None.
    + rewrite IH by done. repeat case_decide; congruence.
Qed.

Lemma values_delete_subseteq k m :
  JsMap.values (JsMap.delete k m) ⊆ JsMap.values m.
Proof.
  unfold JsMap.values. induction m as [|[k0 v0] m IH]; csimpl; [done |].
  case_decide; csimpl; intros x Hx.
  - by right.
  - apply elem_of_cons in Hx as [->|Hx]; [left | right; by apply IH].
Qed.

Lemma values_set k v m x :
  x ∈ JsMap.values (JsMap.set k v m) → x = v ∨ x ∈ JsMap.values m.
Proof.
  unfold JsMap.values. induction m as [|[k0 v0] m IH]; csimpl.
  - intros ->%list_elem_of_singleton. by left.
  - case_decide; csimpl; rewrite !elem_of_cons.
    + tauto.
    + intros [->|Hx]; [by right; left |].
      destruct (IH Hx) as [->|?]; auto.
Qed.
End js_map_facts.

Section js_set_facts.
Context {T : Type} `{EqDecision T}.
Implicit Types (s l : list T) (x : T).

Lemma elem_of_add x y s : x ∈ JsSet.add y s ↔ x = y ∨ x ∈ s.
Proof.
  unfold JsSet.add, JsSet.has. case_bool_decide as Hy.
  - split; [auto | by intros [->|]].
  - rewrite elem_of_app, list_elem_of_singleton. tauto.
Qed.

Lemma NoDup_add y s : NoDup s → NoDup (JsSet.add y s).
Proof.
  intros Hnd. unfold JsSet.add, JsSet.has. case_bool_decide as Hy; [done |].
  apply NoDup_app. split_and!; [done | | apply NoDup_singleton].
  by intros x Hx ->%list_elem_of_singleton.
Qed.

Lemma foldl_add_spec l s :
  NoDup s →
  NoDup (foldl (λ s x, JsSet.add x s) s l)
  ∧ ∀ x, x ∈ foldl (λ s x, JsSet.add x s) s l ↔ x ∈ s ∨ x ∈ l.
Proof.
  revert s. induction l as [|y l IH]; intros s Hnd; simpl.
  - split; [done |]. intros x. rewrite elem_of_nil. tauto.
  - destruct (IH (JsSet.add y s) (NoDup_add y s Hnd)) as [Hnd' Hin].
    split; [done |]. intros x.
    rewrite Hin, elem_of_add, elem_of_cons. tauto.
Qed.

Lemma NoDup_of_list l : NoDup (JsSet.of_list l).
Proof. apply foldl_add_spec, NoDup_nil_2. Qed.

Lemma elem_of_of_list x l : x ∈ JsSet.of_list l ↔ x ∈ l.
Proof.
  unfold JsSet.of_list.
  destruct (foldl_add_spec l [] (NoDup_nil_2 (A:=T))) as [_ Hin].
  rewrite Hin, elem_of_nil. tauto.
Qed.
End js_set_facts.

(** ** Validation *)

Lemma validateIdentifier_Ok value name :
  validateIdentifier value name = Ok tt ↔ valid_identifier value.
Proof.
  unfold validateIdentifier, valid_identifier.
  case_decide as Hempty; [split; [done | by intros [? _]] |].
  case_bool_decide as Hlen; split; try done.
  - intros [_ ?]. lia.
  - intros _. split; [done | lia].
Qed.

Lemma validateIdentifier_valid value name (u : unit) :
  validateIdentifier value name = Ok u → valid_identifier value.
Proof. destruct u. apply validateIdentifier_Ok. Qed.

(** ** The sorted index *)

Lemma StronglySorted_le_lookup (l : list Z) i j a b :
  StronglySorted Z.le l → (i ≤ j)%nat →
  l !! i = Some a → l !! j = Some b → a ≤ b.
Proof.
  intros Hs. revert i j. induction Hs as [|x l Hs IH Hx]; intros i j Hij Hi Hj.
  - done.
  - destruct i as [|i], j as [|j]; simplify_eq/=; try lia.
    + rewrite Forall_forall in Hx. by eapply Hx, list_elem_of_lookup_2.
    + eapply IH; [| done..]. lia.
Qed.

Lemma StronglySorted_le_lt (l : list Z) :
  StronglySorted Z.le l → NoDup l → StronglySorted Z.lt l.
Proof.
  induction 1 as [|x l Hs IH Hx]; intros Hnd; [constructor |].
  apply NoDup_cons in Hnd as [Hx' Hnd]. constructor; [auto |].
  rewrite Forall_forall in Hx |- *. intros y Hy.
  specialize (Hx y Hy). assert (x ≠ y) by (by intros ->). lia.
Qed.

Lemma sort_keys_Permutation m : sort_keys m ≡ₚ JsMap.keys m.
Proof. apply merge_sort_Permutation. Qed.

Lemma sort_keys_StronglySorted m : StronglySorted Z.le (sort_keys m).
Proof. apply (StronglySorted_merge_sort _). Qed.

Lemma elem_of_sort_keys k m : k ∈ sort_keys m ↔ k ∈ JsMap.keys m.
Proof. by rewrite sort_keys_Permutation. Qed.

Lemma length_sort_keys m : length (sort_keys m) = length m.
Proof.
  rewrite sort_keys_Permutation. unfold JsMap.keys. apply length_fmap.
Qed.

Lemma sort_keys_proper m1 m2 :
  JsMap.keys m1 ≡ₚ JsMap.keys m2 → sort_keys m1 = sort_keys m2.
Proof.
  intros Hp. apply (StronglySorted_unique Z.le);
    [apply sort_keys_StronglySorted.. |].
  by rewrite !sort_keys_Permutation.
Qed.

(** ** Binary search *)

Lemma key_below_true keys mid target :
  key_below keys mid target = true ↔ ∃ k, keys !! mid = Some k ∧ k < target.
Proof.
  unfold key_below. destruct (keys !! mid) as [k|].
  - rewrite bool_decide_eq_true. split.
    + intros Hlt. by exists k.
    + by intros (k' & [= <-] & Hlt).
  - split; [done | by intros (k' & ? & _)].
Qed.

Lemma binarySearch_loop_spec keys target lo hi :
  StronglySorted Z.le keys →
  (lo ≤ hi ≤ length keys)%nat →
  (∀ j k, (j < lo)%nat → keys !! j = Some k → k < target) →
  (∀ j k, (hi ≤ j)%nat → keys !! j = Some k → target ≤ k) →
  lower_bound keys target (binarySearch_loop keys target lo hi).
Proof.
  intros Hs. funelim (binarySearch_loop keys target lo hi);
    intros Hrange Hlo Hhi.
  - (* [left >= right]: the loop has ended *)
    assert (lo = hi) as -> by lia. split_and!; [lia | done..].
  - (* [sortedKeys[mid] < target]: [left = mid + 1] *)
    match goal with IH : _ → _ → _ → _ → lower_bound _ _ _ |- _ =>
      apply IH; clear IH end; try done.
    + assert ((lo + hi) / 2 < hi)%nat
        by (apply Nat.Div0.div_lt_upper_bound; lia). lia.
    + intros j k Hj Hk.
      match goal with H : key_below _ _ _ = true |- _ =>
        apply key_below_true in H as (k' & Hk' & Hlt) end.
      assert (k ≤ k'); [| lia].
      eapply (StronglySorted_le_lookup keys j ((lo + hi) / 2)%nat);
        [done | lia | done..].
  - (* otherwise: [right = mid] *)
    assert ((lo + hi) / 2 < hi)%nat
      by (apply Nat.Div0.div_lt_upper_bound; lia).
    assert (lo ≤ (lo + hi) / 2)%nat
      by (apply Nat.div_le_lower_bound; lia).
    match goal with IH : _ → _ → _ → _ → lower_bound _ _ _ |- _ =>
      apply IH; clear IH end; try done; [lia |].
    intros j k Hj Hk.
    destruct (lookup_lt_is_Some_2 keys ((lo + hi) / 2)%nat) as [k' Hk'];
      [lia |].
    assert (¬ k' < target).
    { intros Hlt.
      match goal with H : key_below _ _ _ = false |- _ =>
        rewrite (proj2 (key_below_true _ _ _)) in H; [done | eauto] end. }
    assert (k' ≤ k); [| lia].
    eapply (StronglySorted_le_lookup keys ((lo + hi) / 2)%nat j); done.
Qed.

Lemma lower_bound_unique keys target i i' :
  lower_bound keys target i → lower_bound keys target i' → i = i'.
Proof.
  intros (Hi & Hlt & Hge) (Hi' & Hlt' & Hge').
  destruct (Nat.lt_trichotomy i i') as [Hc|[Hc|Hc]]; [| done |].
  - destruct (lookup_lt_is_Some_2 keys i) as [k Hk]; [lia |].
    specialize (Hlt' i k Hc Hk). specialize (Hge i k (Nat.le_refl _) Hk). lia.
  - destruct (lookup_lt_is_Some_2 keys i') as [k Hk]; [lia |].
    specialize (Hlt i' k Hc Hk). specialize (Hge' i' k (Nat.le_refl _) Hk).
    lia.
Qed.

(** ** The loops of [add] and [remove] *)

Section loops.
Variable hash32 : string → Z.
Implicit Types (m : list (Z * string)) (node : string) (idxs : list nat).

Lemma NoDup_keys_add_loop node m idxs :
  NoDup (JsMap.keys m) → NoDup (JsMap.keys (add_loop hash32 node m idxs)).
Proof.
  revert m. induction idxs as [|i idxs IH]; intros m Hnd; simpl; [done |].
  by apply IH, NoDup_keys_set.
Qed.

Lemma values_add_loop node m idxs x :
  x ∈ JsMap.values (add_loop hash32 node m idxs) →
  x = node ∨ x ∈ JsMap.values m.
Proof.
  revert m. induction idxs as [|i idxs IH]; intros m; simpl; [by right |].
  intros [?|[?|?]%values_set]%IH; auto.
Qed.

Lemma get_add_loop node m idxs p :
  JsMap.get p (add_loop hash32 node m idxs)
  = if decide (p ∈ (λ i, hash32 (virtual_key node i)) <$> idxs)
    then Some node else JsMap.get p m.
Proof.
  revert m. induction idxs as [|i idxs IH]; intros m; csimpl.
  - by rewrite ?decide_False by apply not_elem_of_nil.
  - rewrite IH, get_set.
    destruct (decide (p ∈ _ <$> idxs)) as [Hin|Hin].
    + rewrite decide_True; [done | by right].
    + destruct (decide (p = hash32 (virtual_key node i))) as [->|Hne].
      * rewrite decide_True; [done | left].
      * rewrite decide_False; [done |].
        by intros [?|?]%elem_of_cons.
Qed.

Lemma NoDup_keys_remove_loop node m idxs :
  NoDup (JsMap.keys m) → NoDup (JsMap.keys (remove_loop hash32 node m idxs)).
Proof.
  revert m. induction idxs as [|i idxs IH]; intros m Hnd; simpl; [done |].
  by apply IH, NoDup_keys_delete.
Qed.

Lemma values_remove_loop node m idxs :
  JsMap.values (remove_loop hash32 node m idxs) ⊆ JsMap.values m.
Proof.
  revert m. induction idxs as [|i idxs IH]; intros m; simpl; [done |].
  etrans; [apply IH | apply values_delete_subseteq].
Qed.

Lemma get_remove_loop node m idxs p :
  NoDup (JsMap.keys m) →
  JsMap.get p (remove_loop hash32 node m idxs)
  = if decide (p ∈ (λ i, hash32 (virtual_key node i)) <$> idxs)
    then None else JsMap.get p m.
Proof.
  revert m. induction idxs as [|i idxs IH]; intros m Hnd; csimpl.
  - by rewrite ?decide_False by apply not_elem_of_nil.
  - rewrite IH by by apply NoDup_keys_delete. rewrite get_delete by done.
    destruct (decide (p ∈ _ <$> idxs)) as [Hin|Hin].
    + rewrite decide_True; [done | by right].
    + destruct (decide (p = hash32 (virtual_key node i))) as [->|Hne].
      * rewrite decide_True; [done | left].
      * rewrite decide_False; [done |].
        by intros [?|?]%elem_of_cons.
Qed.

(** Writing the positions of [node] again changes nothing. *)
Lemma add_loop_id node m idxs :
  (∀ i, i ∈ idxs → JsMap.get (hash32 (virtual_key node i)) m = Some node) →
  add_loop hash32 node m idxs = m.
Proof.
  induction idxs as [|i idxs IH]; intros Hget; simpl; [done |].
  rewrite set_id by (apply Hget; left).
  apply IH. intros j Hj. apply Hget. by right.
Qed.

(** Deleting positions the map does not have changes nothing. *)
Lemma remove_loop_id node m idxs :
  (∀ i, i ∈ idxs → JsMap.get (hash32 (virtual_key node i)) m = None) →
  remove_loop hash32 node m idxs = m.
Proof.
  induction idxs as [|i idxs IH]; intros Hget; simpl; [done |].
  rewrite delete_id by (apply Hget; left).
  apply IH. intros j Hj. apply Hget. by right.
Qed.
End loops.

(** ** The invariant holds in every state of a ring *)

Section invariant.
Variable hash32 : string → Z.

Lemma constructor_inv options : ring_inv (constructor options).
Proof. split; simpl; [apply NoDup_nil_2 | done | done]. Qed.

Lemma add_Ok st node st' :
  add hash32 st node = Ok st' →
  valid_identifier node
  ∧ st' = {| ring := add_loop hash32 node (ring st)
                       (replica_indices (replicas st));
             sortedKeys := sort_keys (add_loop hash32 node (ring st)
                       (replica_indices (replicas st)));
             replicas := replicas st |}.
Proof.
  unfold add. destruct (validateIdentifier _ _) as [u|] eqn:Hv; [| done].
  intros [= <-]. split; [by eapply validateIdentifier_valid | done].
Qed.

Lemma remove_Ok st node st' :
  remove hash32 st node = Ok st' →
  valid_identifier node
  ∧ st' = {| ring := remove_loop hash32 node (ring st)
                       (replica_indices (replicas st));
             sortedKeys := sort_keys (remove_loop hash32 node (ring st)
                       (replica_indices (replicas st)));
             replicas := replicas st |}.
Proof.
  unfold remove. destruct (validateIdentifier _ _) as [u|] eqn:Hv; [| done].
  intros [= <-]. split; [by eapply validateIdentifier_valid | done].
Qed.

Lemma add_valid st node :
  valid_identifier node →
  add hash32 st node
  = Ok {| ring := add_loop hash32 node (ring st)
                    (replica_indices (replicas st));
          sortedKeys := sort_keys (add_loop hash32 node (ring st)
                    (replica_indices (replicas st)));
          replicas := replicas st |}.
Proof.
  intros Hv. unfold add.
  by rewrite (proj2 (validateIdentifier_Ok node "Node identifier") Hv).
Qed.

Lemma remove_valid st node :
  valid_identifier node →
  remove hash32 st node
  = Ok {| ring := remove_loop hash32 node (ring st)
                    (replica_indices (replicas st));
          sortedKeys := sort_keys (remove_loop hash32 node (ring st)
                    (replica_indices (replicas st)));
          replicas := replicas st |}.
Proof.
  intros Hv. unfold remove.
  by rewrite (proj2 (validateIdentifier_Ok node "Node identifier") Hv).
Qed.

Lemma add_inv st node st' :
  ring_inv st → add hash32 st node = Ok st' → ring_inv st'.
Proof.
  intros [Hk Hi Hv] [Hnode ->]%add_Ok. split; simpl.
  - by apply NoDup_keys_add_loop.
  - done.
  - rewrite Forall_forall in Hv |- *.
    intros x [->|Hx]%values_add_loop; auto.
Qed.

Lemma remove_inv st node st' :
  ring_inv st → remove hash32 st node = Ok st' → ring_inv st'.
Proof.
  intros [Hk Hi Hv] [Hnode ->]%remove_Ok. split; simpl.
  - by apply NoDup_keys_remove_loop.
  - done.
  - rewrite Forall_forall in Hv |- *.
    intros x Hx%values_remove_loop. auto.
Qed.

Lemma run_op_inv st o st' :
  ring_inv st → run_op hash32 st o = Ok st' → ring_inv st'.
Proof. destruct o; [apply add_inv | apply remove_inv]. Qed.

Lemma run_op_replicas st o st' :
  run_op hash32 st o = Ok st' → replicas st' = replicas st.
Proof. destruct o; simpl; [intros [_ ->]%add_Ok | intros [_ ->]%remove_Ok]; done. Qed.

Lemma run_ops_cons st o ops st' :
  run_ops hash32 st (o :: ops) = Ok st' →
  ∃ st1, run_op hash32 st o = Ok st1 ∧ run_ops hash32 st1 ops = Ok st'.
Proof.
  simpl. destruct (run_op hash32 st o) as [st1|] eqn:E; [| done].
  intros H. by exists st1.
Qed.

Lemma run_ops_inv st ops st' :
  ring_inv st → run_ops hash32 st ops = Ok st' → ring_inv st'.
Proof.
  revert st. induction ops as [|o ops IH]; intros st Hinv.
  - by intros [= <-].
  - intros (st1 & H1 & H2)%run_ops_cons.
    eapply IH; [| done]. by eapply run_op_inv.
Qed.

Lemma run_ops_replicas st ops st' :
  run_ops hash32 st ops = Ok st' → replicas st' = replicas st.
Proof.
  revert st. induction ops as [|o ops IH]; intros st.
  - by intros [= <-].
  - intros (st1 & H1 & H2)%run_ops_cons.
    rewrite <-(run_op_replicas _ _ _ H1). by apply IH.
Qed.

Lemma reachable_inv options ops st :
  run_ops hash32 (constructor options) ops = Ok st → ring_inv st.
Proof. apply run_ops_inv, constructor_inv. Qed.
End invariant.

(** ** Lookups in a well-formed ring *)

Section lookups.
Variable hash32 : string → Z.

Lemma inv_nonempty st :
  ring_inv st → JsMap.size (ring st) ≠ 0%nat →
  (0 < length (sortedKeys st))%nat.
Proof.
  intros [_ Hi _]. rewrite Hi, length_sort_keys. unfold JsMap.size. lia.
Qed.

Lemma node_at_Some st idx :
  ring_inv st → (idx < length (sortedKeys st))%nat →
  ∃ p node, sortedKeys st !! idx = Some p
    ∧ JsMap.get p (ring st) = Some node
    ∧ node_at st idx = Some node
    ∧ valid_identifier node.
Proof.
  intros [Hk Hi Hv] Hidx.
  destruct (lookup_lt_is_Some_2 _ _ Hidx) as [p Hp].
  assert (p ∈ JsMap.keys (ring st)) as Hin.
  { apply elem_of_sort_keys. rewrite <-Hi. by eapply list_elem_of_lookup_2. }
  destruct (keys_get _ _ Hin) as [node Hnode].
  exists p, node. split_and!; [done | done | |].
  - unfold node_at. by rewrite Hp.
  - rewrite Forall_forall in Hv. by eapply Hv, get_Some_values.
Qed.

Lemma binarySearch_lower_bound st target :
  ring_inv st →
  lower_bound (sortedKeys st) target (binarySearch st target).
Proof.
  intros [_ Hi _]. unfold binarySearch.
  apply binarySearch_loop_spec.
  - rewrite Hi. apply sort_keys_StronglySorted.
  - lia.
  - intros j k Hj. lia.
  - intros j k Hj Hk%lookup_lt_Some. lia.
Qed.

Lemma wrap_lt st idx :
  (0 < length (sortedKeys st))%nat →
  (wrap st idx < length (sortedKeys st))%nat.
Proof. intros Hpos. unfold wrap. case_decide; lia. Qed.

Lemma get_valid st key :
  valid_identifier key →
  get hash32 st key
  = if decide (JsMap.size (ring st) = 0%nat) then Ok None
    else Ok (node_at st (wrap st (binarySearch st (hash32 key)))).
Proof.
  intros Hv. unfold get.
  by rewrite (proj2 (validateIdentifier_Ok key "Key") Hv).
Qed.

Lemma getN_valid st key count :
  valid_identifier key →
  getN hash32 st key count
  = if decide (JsMap.size (ring st) = 0%nat ∨ count ≤ 0) then Ok []
    else Ok (getN_loop st count (length (sortedKeys st))
               (binarySearch st (hash32 key)) ([], [])).
Proof.
  intros Hv. unfold getN.
  by rewrite (proj2 (validateIdentifier_Ok key "Key") Hv).
Qed.
End lookups.

(** ** Validation of the four operations *)

Lemma validates_guard {A : Type} (g : string → A) (name : string) :
  empty_message name ≠ too_long_message name →
  validates (λ s, _ ← validateIdentifier s name; Ok (g s)) name.
Proof.
  intros Hne s. unfold validateIdentifier.
  destruct (decide (s = "")) as [->|Hs]; [| case_bool_decide as Hlen]; simpl.
  - (* the empty string *)
    split_and!.
    + done.
    + split; [intros [= Heq]; by destruct Hne | lia].
    + split; [by intros [a ?] | by intros [? _]].
  - (* more than 1000 characters *)
    split_and!.
    + split; [intros [= Heq]; by destruct Hne | done].
    + split; [lia | done].
    + split; [by intros [a ?] | intros [_ ?]; lia].
  - (* accepted *)
    split_and!.
    + split; done.
    + split; [done | lia].
    + split; [intros _; split; [done | lia] | intros _; by eexists].
Qed.

Lemma validates_ext {A : Type} (f f' : string → result A) (name : string) :
  (∀ s, f s = f' s) → validates f' name → validates f name.
Proof. intros Heq Hf' s. rewrite Heq. apply Hf'. Qed.

Lemma node_messages_differ :
  empty_message "Node identifier" ≠ too_long_message "Node identifier".
Proof. intros Heq. vm_compute in Heq. discriminate Heq. Qed.

Lemma key_messages_differ : empty_message "Key" ≠ too_long_message "Key".
Proof. intros Heq. vm_compute in Heq. discriminate Heq. Qed.

(** C8. Each of [add], [remove], [get] and [getN] throws the empty-identifier
    error exactly when its node or key argument is the empty string and the
    too-long error exactly when the argument has more than 1000 characters,
    and returns in every other case (so at lengths 1 and 1000); the message
    starts with the parameter's name, "Node identifier" for [add] and
    [remove], "Key" for [get] and [getN]. *)
Theorem validation_errors (hash32 : string → Z) (st : HashOrbit) (count : Z) :
  validates (add hash32 st) "Node identifier"
  ∧ validates (remove hash32 st) "Node identifier"
  ∧ validates (get hash32 st) "Key"
  ∧ validates (λ key, getN hash32 st key count) "Key".
Proof.
  split_and!.
  - apply (validates_guard _ _ node_messages_differ).
  - apply (validates_guard _ _ node_messages_differ).
  - eapply validates_ext;
      [| apply (validates_guard
           (λ key, if decide (JsMap.size (ring st) = 0%nat) then None
                   else node_at st (wrap st (binarySearch st (hash32 key))))
           _ key_messages_differ)].
    intros s. unfold get. destruct (validateIdentifier s "Key"); simpl;
      [by case_decide | done].
  - eapply validates_ext;
      [| apply (validates_guard
           (λ key, if decide (JsMap.size (ring st) = 0%nat ∨ count ≤ 0)
                   then []
                   else getN_loop st count (length (sortedKeys st))
                          (binarySearch st (hash32 key)) ([], []))
           _ key_messages_differ)].
    intros s. unfold getN. destruct (validateIdentifier s "Key"); simpl;
      [by case_decide | done].
Qed.

(** The messages, as the caller reads them. *)
Example validation_messages :
  add checksum (constructor {| opt_replicas := None |}) ""
    = Throw "Node identifier cannot be empty"
  ∧ get checksum (constructor {| opt_replicas := None |}) ""
    = Throw "Key cannot be empty"
  ∧ too_long_message "Key" = "Key exceeds maximum length of 1000 characters".
Proof. split_and!; reflexivity. Qed.

(** C9. For a valid key, [get] on a ring with no position returns
    [undefined] and does not throw, and [getN] returns the empty array,
    without throwing, when the ring has no position or [count <= 0]. *)
Theorem empty_ring_lookups (hash32 : string → Z) (st : HashOrbit)
    (key : string) (count : Z) :
  valid_identifier key →
  (JsMap.size (ring st) = 0%nat → get hash32 st key = Ok None)
  ∧ (JsMap.size (ring st) = 0%nat ∨ count ≤ 0 →
     getN hash32 st key count = Ok []).
Proof.
  intros Hv. split; intros Hempty.
  - rewrite get_valid by done. by rewrite decide_True.
  - rewrite getN_valid by done. by rewrite decide_True.
Qed.

Lemma empty_ring_lookups_witness :
  valid_identifier "user:42"
  ∧ get checksum (constructor {| opt_replicas := None |}) "user:42" = Ok None
  ∧ getN checksum (constructor {| opt_replicas := None |}) "user:42" 3 = Ok [].
Proof.
  assert (valid_identifier "user:42") as Hv by (split; [done | simpl; lia]).
  split; [exact Hv |].
  destruct (empty_ring_lookups checksum
              (constructor {| opt_replicas := None |}) "user:42" 3 Hv)
    as [Hget HgetN].
  split; [apply Hget; reflexivity | apply HgetN; left; reflexivity].
Defined.

(** C10. A ring constructed with [replicas <= 0] (the constructor accepts
    it) gains no position from [add] of a valid node identifier: the call
    returns, the ring is as constructed, with no position and [size] 0, and
    [get] of every valid key returns [undefined]. *)
Theorem nonpositive_replicas_add (hash32 : string → Z) (r : Z)
    (node : string) :
  r ≤ 0 → valid_identifier node →
  ∃ st, add hash32 (constructor {| opt_replicas := Some r |}) node = Ok st
    ∧ st = constructor {| opt_replicas := Some r |}
    ∧ ring st = [] ∧ sortedKeys st = []
    ∧ size st = 0%nat
    ∧ ∀ key, valid_identifier key → get hash32 st key = Ok None.
Proof.
  intros Hr Hnode. eexists. split; [by apply add_valid |].
  assert (replica_indices r = []) as Hidx.
  { unfold replica_indices. by replace (Z.to_nat r) with 0%nat by lia. }
  simpl. rewrite Hidx. simpl. split_and!; try done.
  intros key Hkey. by rewrite get_valid.
Qed.

Lemma nonpositive_replicas_add_witness :
  ∃ st, add checksum (constructor {| opt_replicas := Some (-3) |}) "server-1"
        = Ok st
    ∧ st = constructor {| opt_replicas := Some (-3) |}
    ∧ ring st = [] ∧ sortedKeys st = []
    ∧ size st = 0%nat
    ∧ ∀ key, valid_identifier key → get checksum st key = Ok None.
Proof.
  apply (nonpositive_replicas_add checksum (-3) "server-1").
  - lia.
  - split; [done | simpl; lia].
Defined.

(** ** Claims about the ring's state *)

Lemma remove_absent_inv (hash32 : string → Z) (st : HashOrbit)
    (node : string) :
  ring_inv st →
  valid_identifier node →
  (∀ p, p ∈ positions hash32 (replicas st) node →
        JsMap.get p (ring st) = None) →
  remove hash32 st node = Ok st.
Proof.
  intros [_ Hi _] Hnode Habsent.
  rewrite remove_valid by done.
  rewrite remove_loop_id.
  - rewrite <-Hi. by destruct st.
  - intros i Hi'. apply Habsent. unfold positions.
    by apply (list_elem_of_fmap_2 (λ i, hash32 (virtual_key node i))).
Qed.

(** C5. In every state of a ring (after construction and after every [add]
    and [remove]) the sorted index is strictly ascending, so free of
    duplicates, and holds exactly the keys of the entry map, and [nodes]
    holds, without duplicates, exactly the values of the entry map. *)
Theorem ring_invariants (hash32 : string → Z) (options : HashOrbitOptions)
    (ops : list op) (st : HashOrbit) :
  run_ops hash32 (constructor options) ops = Ok st →
  StronglySorted Z.lt (sortedKeys st)
  ∧ NoDup (JsMap.keys (ring st))
  ∧ (∀ p, p ∈ sortedKeys st ↔ is_Some (JsMap.get p (ring st)))
  ∧ NoDup (nodes st)
  ∧ (∀ n, n ∈ nodes st ↔ ∃ p, JsMap.get p (ring st) = Some n).
Proof.
  intros [Hk Hi Hv]%reachable_inv. split_and!.
  - rewrite Hi. apply StronglySorted_le_lt.
    + apply sort_keys_StronglySorted.
    + by rewrite sort_keys_Permutation.
  - done.
  - intros p. rewrite Hi, elem_of_sort_keys. split.
    + apply keys_get.
    + intros [n Hn]. by eapply get_Some_keys.
  - apply NoDup_of_list.
  - intros n. unfold nodes, getUniqueNodes. rewrite elem_of_of_list. split.
    + by apply values_get.
    + intros [p Hp]. by eapply get_Some_values.
Qed.

Lemma ring_invariants_witness :
  run_ops checksum (constructor {| opt_replicas := Some 2 |})
    [OpAdd "b"; OpAdd "a"]
  = Ok {| ring := [(204, "a"); (205, "b"); (203, "a")];
          sortedKeys := [203; 204; 205];
          replicas := 2 |}
  ∧ StronglySorted Z.lt [203; 204; 205]
  ∧ NoDup (nodes {| ring := [(204, "a"); (205, "b"); (203, "a")];
                    sortedKeys := [203; 204; 205];
                    replicas := 2 |}).
Proof.
  assert (run_ops checksum (constructor {| opt_replicas := Some 2 |})
            [OpAdd "b"; OpAdd "a"]
          = Ok {| ring := [(204, "a"); (205, "b"); (203, "a")];
                  sortedKeys := [203; 204; 205];
                  replicas := 2 |}) as Hrun by reflexivity.
  split; [exact Hrun |].
  destruct (ring_invariants checksum _ _ _ Hrun) as (Hs & _ & _ & Hn & _).
  split; [exact Hs | exact Hn].
Defined.

(** C1. In a ring with at least one position, [get] of a valid key returns
    the node the entry map gives to the position at index [idx] of the
    sorted index, where [idx] is what [binarySearch] returns for
    [hash32(key)], the first index whose position is [>= hash32(key)], or 0
    when there is none. *)
Theorem get_successor (hash32 : string → Z) (options : HashOrbitOptions)
    (ops : list op) (st : HashOrbit) (key : string) :
  run_ops hash32 (constructor options) ops = Ok st →
  JsMap.size (ring st) ≠ 0%nat →
  valid_identifier key →
  ∃ i p node,
    binarySearch st (hash32 key) = i
    ∧ lower_bound (sortedKeys st) (hash32 key) i
    ∧ sortedKeys st
        !! (if decide (i < length (sortedKeys st))%nat then i else 0%nat)
      = Some p
    ∧ JsMap.get p (ring st) = Some node
    ∧ get hash32 st key = Ok (Some node).
Proof.
  intros Hinv%reachable_inv Hsize Hkey.
  pose proof (inv_nonempty st Hinv Hsize) as Hpos.
  pose proof (wrap_lt st (binarySearch st (hash32 key)) Hpos) as Hlt.
  destruct (node_at_Some st _ Hinv Hlt) as (p & node & Hp & Hnode & Hat & _).
  exists (binarySearch st (hash32 key)), p, node. split_and!.
  - done.
  - by apply binarySearch_lower_bound.
  - unfold wrap in Hp. by repeat case_decide; try lia.
  - done.
  - rewrite get_valid by done. rewrite decide_False by done. by rewrite Hat.
Qed.

Lemma get_successor_witness :
  ∃ i p node,
    binarySearch {| ring := [(204, "a"); (205, "b"); (203, "a")];
                    sortedKeys := [203; 204; 205];
                    replicas := 2 |} (checksum "zz") = i
    ∧ lower_bound [203; 204; 205] (checksum "zz") i
    ∧ [203; 204; 205] !! (if decide (i < 3)%nat then i else 0%nat) = Some p
    ∧ JsMap.get p [(204, "a"); (205, "b"); (203, "a")] = Some node
    ∧ get checksum {| ring := [(204, "a"); (205, "b"); (203, "a")];
                      sortedKeys := [203; 204; 205];
                      replicas := 2 |} "zz" = Ok (Some node).
Proof.
  apply (get_successor checksum {| opt_replicas := Some 2 |}
           [OpAdd "b"; OpAdd "a"]
           {| ring := [(204, "a"); (205, "b"); (203, "a")];
              sortedKeys := [203; 204; 205];
              replicas := 2 |} "zz").
  - reflexivity.
  - simpl. lia.
  - split; [done | simpl; lia].
Defined.

(** The wrap, run: "zz" hashes past the last position, and [get] returns
    the owner of the first one. *)
Example get_wraps :
  checksum "zz" = 244
  ∧ get checksum {| ring := [(204, "a"); (205, "b"); (203, "a")];
                    sortedKeys := [203; 204; 205];
                    replicas := 2 |} "zz" = Ok (Some "a")
  ∧ get checksum {| ring := [(204, "a"); (205, "b"); (203, "a")];
                    sortedKeys := [203; 204; 205];
                    replicas := 2 |} "b:1" = Ok (Some "b").
Proof. split_and!; reflexivity. Qed.

(** C6. For a valid node identifier and any state of the ring, [add] leaves
    a state that a second [add] of the same node returns unchanged, and
    with it [size], [nodes] and the number of positions. *)
Theorem add_idempotent (hash32 : string → Z) (st : HashOrbit)
    (node : string) :
  valid_identifier node →
  ∃ st1, add hash32 st node = Ok st1
    ∧ add hash32 st1 node = Ok st1
    ∧ (∀ st2, add hash32 st1 node = Ok st2 →
         size st2 = size st1 ∧ nodes st2 = nodes st1
         ∧ length (sortedKeys st2) = length (sortedKeys st1)).
Proof.
  intros Hnode. eexists. split; [by apply add_valid |].
  assert (∀ st1, st1 = {| ring := add_loop hash32 node (ring st)
                                    (replica_indices (replicas st));
                          sortedKeys := sort_keys (add_loop hash32 node (ring st)
                                    (replica_indices (replicas st)));
                          replicas := replicas st |} →
                 add hash32 st1 node = Ok st1) as Hagain.
  { intros st1 ->. rewrite add_valid by done. simpl.
    rewrite add_loop_id; [done |].
    intros i Hi. rewrite get_add_loop. rewrite decide_True; [done |].
    by apply (list_elem_of_fmap_2 (λ i, hash32 (virtual_key node i))). }
  split; [by apply Hagain |].
  intros st2. rewrite Hagain by done. by intros [= <-].
Qed.

Lemma add_idempotent_witness :
  ∃ st1, add checksum {| ring := [(205, "b")]; sortedKeys := [205];
                         replicas := 1 |} "a" = Ok st1
    ∧ add checksum st1 "a" = Ok st1
    ∧ (∀ st2, add checksum st1 "a" = Ok st2 →
         size st2 = size st1 ∧ nodes st2 = nodes st1
         ∧ length (sortedKeys st2) = length (sortedKeys st1)).
Proof.
  apply (add_idempotent checksum).
  split; [done | simpl; lia].
Defined.

(** C7. For a valid node identifier none of whose positions is in the entry
    map, [remove] throws nothing and returns the state it was given: the
    same entry map and sorted index, hence the same [size] and [nodes]. *)
Theorem remove_absent (hash32 : string → Z) (options : HashOrbitOptions)
    (ops : list op) (st : HashOrbit) (node : string) :
  run_ops hash32 (constructor options) ops = Ok st →
  valid_identifier node →
  (∀ p, p ∈ positions hash32 (replicas st) node →
        JsMap.get p (ring st) = None) →
  remove hash32 st node = Ok st.
Proof.
  intros Hinv%reachable_inv Hnode Habsent. by apply remove_absent_inv.
Qed.

Lemma remove_absent_witness :
  remove checksum {| ring := [(204, "a"); (205, "b"); (203, "a")];
                     sortedKeys := [203; 204; 205];
                     replicas := 2 |} "server-9"
  = Ok {| ring := [(204, "a"); (205, "b"); (203, "a")];
          sortedKeys := [203; 204; 205];
          replicas := 2 |}.
Proof.
  apply (remove_absent checksum {| opt_replicas := Some 2 |}
           [OpAdd "b"; OpAdd "a"]).
  - reflexivity.
  - split; [done | simpl; lia].
  - intros p Hp. vm_compute in Hp.
    apply list_elem_of_In in Hp. simpl in Hp.
    destruct Hp as [<-|[<-|[]]]; reflexivity.
Defined.

(** ** The walk of [getN] *)

Section walk.
Implicit Types (st : HashOrbit) (acc : list string * list string).

Lemma node_at_values st idx node :
  node_at st idx = Some node → node ∈ JsMap.values (ring st).
Proof.
  unfold node_at. destruct (sortedKeys st !! idx) as [k|]; [| done].
  apply get_Some_values.
Qed.

Lemma getN_visit_prefix st idx acc :
  ∃ ext, (getN_visit st idx acc).2 = acc.2 ++ ext.
Proof.
  unfold getN_visit. destruct (node_at st (wrap st idx)) as [node|].
  - destruct (bool_decide (node ≠ "") && negb (JsSet.has node acc.1)).
    + by exists [node].
    + exists []. by rewrite app_nil_r.
  - exists []. by rewrite app_nil_r.
Qed.

Lemma getN_loop_prefix st count n idx acc :
  ∃ ext, getN_loop st count n idx acc = acc.2 ++ ext.
Proof.
  revert idx acc. induction n as [|n IH]; intros idx acc; simpl.
  - exists []. by rewrite app_nil_r.
  - case_bool_decide; [| exists []; by rewrite app_nil_r].
    destruct (IH (S (wrap st idx)) (getN_visit st idx acc)) as [ext ->].
    destruct (getN_visit_prefix st idx acc) as [ext' ->].
    exists (ext' ++ ext). by rewrite (assoc_L (++)).
Qed.

Lemma getN_visit_inv st idx acc :
  walk_inv st acc → walk_inv st (getN_visit st idx acc).
Proof.
  intros Hacc. pose proof Hacc as [Hnd Hseen Hnodes]. unfold getN_visit.
  destruct (node_at st (wrap st idx)) as [node|] eqn:Hat; [| done].
  destruct (bool_decide (node ≠ "")); simpl; [| done].
  unfold JsSet.has. case_bool_decide as Hin; simpl; [done |].
  split; simpl.
  - apply NoDup_app. split_and!; [done | | apply NoDup_singleton].
    intros x Hx ->%list_elem_of_singleton. by apply Hin, Hseen.
  - intros x. rewrite elem_of_add, elem_of_app, list_elem_of_singleton.
    rewrite Hseen. tauto.
  - intros x [Hx| ->%list_elem_of_singleton]%elem_of_app; [auto |].
    by eapply node_at_values.
Qed.

Lemma getN_loop_inv st count n idx acc :
  walk_inv st acc →
  NoDup (getN_loop st count n idx acc)
  ∧ ∀ x, x ∈ getN_loop st count n idx acc → x ∈ JsMap.values (ring st).
Proof.
  revert idx acc. induction n as [|n IH]; intros idx acc Hacc; simpl.
  - by destruct Hacc.
  - case_bool_decide; [| by destruct Hacc].
    by apply IH, getN_visit_inv.
Qed.

(** A turn leaves the node of the position it visits in [result]. *)
Lemma getN_visit_collects st idx acc node :
  walk_inv st acc → node_at st (wrap st idx) = Some node → node ≠ "" →
  node ∈ (getN_visit st idx acc).2.
Proof.
  intros [_ Hseen _] Hat Hne. unfold getN_visit. rewrite Hat.
  rewrite bool_decide_true by done. simpl.
  unfold JsSet.has. case_bool_decide as Hin; simpl.
  - by apply Hseen.
  - apply elem_of_app. right. by apply list_elem_of_singleton.
Qed.

Lemma walk_length st acc :
  walk_inv st acc → (length acc.2 ≤ size st)%nat.
Proof.
  intros [Hnd _ Hnodes]. unfold size, JsSet.size, getUniqueNodes.
  apply submseteq_length, NoDup_submseteq; [done |].
  intros x Hx. by apply elem_of_of_list, Hnodes.
Qed.

(** With [count] above the number of nodes the loop never stops early,
    and leaves in [result] the node of every position it visits. *)
Lemma getN_loop_covers st count n idx acc j node :
  ring_inv st → walk_inv st acc →
  Z.of_nat (size st) < count →
  (idx ≤ length (sortedKeys st))%nat →
  visited (length (sortedKeys st)) n idx j →
  node_at st j = Some node →
  node ∈ getN_loop st count n idx acc.
Proof.
  intros Hinv Hacc Hcount. revert idx acc Hacc.
  induction n as [|n IH]; intros idx acc Hacc Hidx Hj Hat.
  { destruct Hj as [?|?]; lia. }
  assert (j < length (sortedKeys st))%nat as Hjlen.
  { unfold node_at in Hat.
    destruct (sortedKeys st !! j) as [k|] eqn:Hk; [| done].
    by eapply lookup_lt_Some. }
  simpl. rewrite bool_decide_true
    by (pose proof (walk_length st acc Hacc); lia).
  destruct (decide (j = wrap st idx)) as [->|Hne].
  - destruct (node_at_Some st _ Hinv Hjlen) as (p & node' & _ & _ & Hat' & Hv).
    assert (node' = node) as -> by congruence.
    destruct (getN_loop_prefix st count n (S (wrap st idx))
                (getN_visit st idx acc)) as [ext ->].
    apply elem_of_app. left.
    apply getN_visit_collects; [done | done | by destruct Hv].
  - apply IH; [by apply getN_visit_inv | | | done].
    + unfold wrap. case_decide; lia.
    + unfold wrap in *. unfold visited in *. case_decide; lia.
Qed.
End walk.

(** C2. In a ring with at least one position, for a valid key and
    [count >= 1], the first element of [getN(key, count)] is the node
    [get(key)] returns. *)
Theorem getN_head_is_get (hash32 : string → Z) (options : HashOrbitOptions)
    (ops : list op) (st : HashOrbit) (key : string) (count : Z) :
  run_ops hash32 (constructor options) ops = Ok st →
  JsMap.size (ring st) ≠ 0%nat →
  valid_identifier key →
  1 ≤ count →
  ∃ node rest,
    get hash32 st key = Ok (Some node)
    ∧ getN hash32 st key count = Ok (node :: rest).
Proof.
  intros Hinv%reachable_inv Hsize Hkey Hcount.
  pose proof (inv_nonempty st Hinv Hsize) as Hpos.
  pose proof (wrap_lt st (binarySearch st (hash32 key)) Hpos) as Hlt.
  destruct (node_at_Some st _ Hinv Hlt) as (p & node & _ & _ & Hat & Hne & _).
  rewrite get_valid, getN_valid by done.
  rewrite !decide_False by (try intros [?|?]; done || lia).
  destruct (length (sortedKeys st)) as [|n] eqn:Hlen; [lia |].
  simpl. rewrite bool_decide_true by lia.
  unfold getN_visit at 1. rewrite Hat.
  rewrite bool_decide_true by done. simpl.
  destruct (getN_loop_prefix st count n
              (S (wrap st (binarySearch st (hash32 key))))
              (JsSet.add node [], [node])) as [ext ->].
  by exists node, ext.
Qed.

Lemma getN_head_is_get_witness :
  ∃ node rest,
    get checksum {| ring := [(204, "a"); (205, "b"); (203, "a")];
                    sortedKeys := [203; 204; 205];
                    replicas := 2 |} "b:1" = Ok (Some node)
    ∧ getN checksum {| ring := [(204, "a"); (205, "b"); (203, "a")];
                       sortedKeys := [203; 204; 205];
                       replicas := 2 |} "b:1" 2 = Ok (node :: rest).
Proof.
  apply (getN_head_is_get checksum {| opt_replicas := Some 2 |}
           [OpAdd "b"; OpAdd "a"]).
  - reflexivity.
  - simpl. lia.
  - split; [done | simpl; lia].
  - lia.
Defined.

(** C3. For a valid key and any [count], the elements of [getN(key, count)]
    are pairwise distinct nodes of the ring; and when [count] exceeds the
    number of distinct nodes, they are all the nodes of the ring, each
    once, so [size] many. *)
Theorem getN_distinct_exhaustive (hash32 : string → Z)
    (options : HashOrbitOptions) (ops : list op) (st : HashOrbit)
    (key : string) (count : Z) :
  run_ops hash32 (constructor options) ops = Ok st →
  valid_identifier key →
  ∃ l, getN hash32 st key count = Ok l
    ∧ NoDup l
    ∧ (∀ n, n ∈ l → n ∈ nodes st)
    ∧ (Z.of_nat (size st) < count →
       (∀ n, n ∈ l ↔ n ∈ nodes st) ∧ length l = size st).
Proof.
  intros Hinv%reachable_inv Hkey. rewrite getN_valid by done.
  assert (walk_inv st ([], [])) as Hacc.
  { split; simpl; [apply NoDup_nil_2 | done |]. by intros x ?%elem_of_nil. }
  case_decide as Hempty.
  - (* [ring.size === 0 || count <= 0] *)
    eexists. split; [done |]. split_and!.
    + apply NoDup_nil_2.
    + by intros n ?%elem_of_nil.
    + intros Hcount. destruct Hempty as [Hempty|?]; [| lia].
      destruct (ring st) eqn:Hring; [| done].
      unfold size, nodes, getUniqueNodes. rewrite Hring. by split.
  - eexists. split; [done |].
    destruct (getN_loop_inv st count (length (sortedKeys st))
                (binarySearch st (hash32 key)) ([], []) Hacc) as [Hnd Hsub].
    assert (∀ n, n ∈ getN_loop st count (length (sortedKeys st))
                       (binarySearch st (hash32 key)) ([], []) →
                 n ∈ nodes st) as Hsub'.
    { intros n Hn. by apply elem_of_of_list, Hsub. }
    split_and!; [done | done |]. intros Hcount.
    assert (∀ n, n ∈ getN_loop st count (length (sortedKeys st))
                       (binarySearch st (hash32 key)) ([], []) ↔
                 n ∈ nodes st) as Hiff.
    { intros n. split; [apply Hsub' |].
      intros Hn. apply (proj1 (elem_of_of_list _ _)) in Hn.
      destruct (values_get _ _ (inv_keys st Hinv) Hn) as [p Hp].
      assert (p ∈ sortedKeys st) as [j Hj]%list_elem_of_lookup_1.
      { rewrite (inv_index st Hinv). apply elem_of_sort_keys.
        by eapply get_Some_keys. }
      pose proof (binarySearch_lower_bound st (hash32 key) Hinv) as [Hle _].
      apply (getN_loop_covers st count _ _ _ j); try done.
      - apply lookup_lt_Some in Hj. unfold visited. lia.
      - unfold node_at. by rewrite Hj. }
    split; [done |].
    apply Permutation_length, NoDup_Permutation; [done | | done].
    apply NoDup_of_list.
Qed.

Lemma getN_distinct_exhaustive_witness :
  ∃ l, getN checksum {| ring := [(204, "a"); (205, "b"); (203, "a")];
                        sortedKeys := [203; 204; 205];
                        replicas := 2 |} "b:1" 5 = Ok l
    ∧ NoDup l
    ∧ (∀ n, n ∈ l → n ∈ ["a"; "b"])
    ∧ (2 < 5 → (∀ n, n ∈ l ↔ n ∈ ["a"; "b"]) ∧ length l = 2%nat).
Proof.
  apply (getN_distinct_exhaustive checksum {| opt_replicas := Some 2 |}
           [OpAdd "b"; OpAdd "a"]
           {| ring := [(204, "a"); (205, "b"); (203, "a")];
              sortedKeys := [203; 204; 205];
              replicas := 2 |} "b:1" 5).
  - reflexivity.
  - split; [done | simpl; lia].
Defined.

(** The walk, run: from position 205, owned by "b", to the start. *)
Example getN_walks :
  getN checksum {| ring := [(204, "a"); (205, "b"); (203, "a")];
                   sortedKeys := [203; 204; 205];
                   replicas := 2 |} "b:1" 5 = Ok ["b"; "a"]
  ∧ getN checksum {| ring := [(204, "a"); (205, "b"); (203, "a")];
                     sortedKeys := [203; 204; 205];
                     replicas := 2 |} "b:1" 1 = Ok ["b"].
Proof. split; reflexivity. Qed.

(** ** Lookups depend on the entry map through [Map.get] only *)

Section extensionality.
Variable hash32 : string → Z.
Variables st st' : HashOrbit.
Hypothesis same_index : sortedKeys st' = sortedKeys st.
Hypothesis same_get : ∀ p, JsMap.get p (ring st') = JsMap.get p (ring st).
Hypothesis same_size : JsMap.size (ring st') = JsMap.size (ring st).

Lemma binarySearch_ext target :
  binarySearch st' target = binarySearch st target.
Proof. unfold binarySearch. by rewrite same_index. Qed.

Lemma wrap_ext idx : wrap st' idx = wrap st idx.
Proof. unfold wrap. by rewrite same_index. Qed.

Lemma node_at_ext idx : node_at st' idx = node_at st idx.
Proof.
  unfold node_at. rewrite same_index.
  destruct (sortedKeys st !! idx); [apply same_get | done].
Qed.

Lemma getN_visit_ext idx acc : getN_visit st' idx acc = getN_visit st idx acc.
Proof. unfold getN_visit. by rewrite wrap_ext, node_at_ext. Qed.

Lemma getN_loop_ext count n idx acc :
  getN_loop st' count n idx acc = getN_loop st count n idx acc.
Proof.
  revert idx acc. induction n as [|n IH]; intros idx acc; simpl; [done |].
  by rewrite IH, wrap_ext, getN_visit_ext.
Qed.

Lemma get_ext key : get hash32 st' key = get hash32 st key.
Proof.
  unfold get. by rewrite same_size, binarySearch_ext, wrap_ext, node_at_ext.
Qed.

Lemma getN_ext key count :
  getN hash32 st' key count = getN hash32 st key count.
Proof.
  unfold getN. destruct (validateIdentifier key "Key"); simpl; [| done].
  rewrite same_size, same_index, binarySearch_ext.
  case_decide; [done |]. by rewrite getN_loop_ext.
Qed.
End extensionality.

(** Two well-formed rings whose maps answer alike have the same index, the
    same number of positions and the same nodes. *)
Lemma same_get_same_ring (st st' : HashOrbit) :
  ring_inv st → ring_inv st' →
  (∀ p, JsMap.get p (ring st') = JsMap.get p (ring st)) →
  sortedKeys st' = sortedKeys st
  ∧ JsMap.size (ring st') = JsMap.size (ring st)
  ∧ nodes st' ≡ₚ nodes st.
Proof.
  intros [Hk Hi Hv] [Hk' Hi' Hv'] Hget.
  assert (JsMap.keys (ring st') ≡ₚ JsMap.keys (ring st)) as Hperm.
  { apply NoDup_Permutation; [done | done |]. intros p. split.
    - intros [n Hn]%keys_get. rewrite Hget in Hn. by eapply get_Some_keys.
    - intros [n Hn]%keys_get. rewrite <-Hget in Hn. by eapply get_Some_keys. }
  split_and!.
  - rewrite Hi, Hi'. by apply sort_keys_proper.
  - unfold JsMap.size.
    rewrite <-(length_fmap fst (ring st')), <-(length_fmap fst (ring st)).
    by apply Permutation_length.
  - apply NoDup_Permutation; [apply NoDup_of_list.. |].
    intros n. unfold nodes, getUniqueNodes. rewrite !elem_of_of_list. split.
    + intros [p Hp]%values_get; [| done]. rewrite Hget in Hp.
      by eapply get_Some_values.
    + intros [p Hp]%values_get; [| done]. rewrite <-Hget in Hp.
      by eapply get_Some_values.
Qed.

(** ** Rings without position collisions *)

Section placement.
Variable hash32 : string → Z.
Variable r : Z.
Variable U : list string.
Hypothesis no_collision : collision_free hash32 r U.

Lemma placed_add st node st' S :
  replicas st = r → placed hash32 r S (ring st) →
  S ⊆ U → node ∈ U →
  add hash32 st node = Ok st' →
  placed hash32 r (node :: S) (ring st').
Proof.
  intros Hr Hplaced HS Hnode [_ ->]%add_Ok p n. simpl.
  rewrite get_add_loop, Hr. fold (positions hash32 r node).
  rewrite elem_of_cons. case_decide as Hp.
  - split.
    + intros [= <-]. auto.
    + intros [[->|Hn] Hpn]; [done |]. f_equal.
      apply (no_collision node n p); auto.
  - rewrite (Hplaced p n). split; [tauto |].
    intros [[->|Hn] Hpn]; [done | auto].
Qed.

Lemma placed_remove st node st' S :
  ring_inv st →
  replicas st = r → placed hash32 r S (ring st) →
  S ⊆ U → node ∈ U →
  remove hash32 st node = Ok st' →
  placed hash32 r (filter (λ x, x ≠ node) S) (ring st').
Proof.
  intros [Hk _ _] Hr Hplaced HS Hnode [_ ->]%remove_Ok p n. simpl.
  rewrite get_remove_loop, Hr by done. fold (positions hash32 r node).
  rewrite list_elem_of_filter. case_decide as Hp.
  - split; [done |]. intros [[Hne Hn] Hpn]. destruct Hne.
    apply (no_collision n node p); auto.
  - rewrite (Hplaced p n). split; [| tauto].
    intros [Hn Hpn]. split_and!; [| done..]. by intros ->.
Qed.

Lemma present_after_subseteq S ops :
  S ⊆ U → Forall (λ o, op_node o ∈ U) ops → present_after S ops ⊆ U.
Proof.
  intros HS Hops. revert S HS.
  induction Hops as [|o ops Ho Hops IH]; intros S HS; simpl; [done |].
  apply IH. destruct o as [n|n]; simpl in *.
  - intros x [->|Hx]%elem_of_cons; auto.
  - intros x [_ Hx]%list_elem_of_filter. auto.
Qed.

Lemma run_ops_placed st ops st' S :
  ring_inv st →
  replicas st = r → placed hash32 r S (ring st) →
  S ⊆ U → Forall (λ o, op_node o ∈ U) ops →
  run_ops hash32 st ops = Ok st' →
  replicas st' = r ∧ placed hash32 r (present_after S ops) (ring st').
Proof.
  intros Hinv Hr Hplaced HS Hops. revert st S Hinv Hr Hplaced HS.
  induction Hops as [|o ops Ho Hops IH]; intros st S Hinv Hr Hplaced HS.
  - by intros [= <-].
  - intros (st1 & H1 & H2)%run_ops_cons. simpl.
    eapply (IH st1); [by eapply run_op_inv | | | | done].
    + by rewrite (run_op_replicas _ _ _ _ H1).
    + destruct o as [n|n]; simpl in *;
        [by eapply placed_add | by eapply placed_remove].
    + apply (present_after_subseteq S [o]); [done | by constructor].
Qed.
End placement.

Section roundtrip.
Variable hash32 : string → Z.

Lemma add_all_run_ops st ns :
  add_all hash32 st ns = run_ops hash32 st (OpAdd <$> ns).
Proof.
  revert st. induction ns as [|n ns IH]; intros st; csimpl; [done |].
  destruct (add hash32 st n); simpl; [apply IH | done].
Qed.

Lemma add_all_valid st ns :
  Forall valid_identifier ns → ∃ st', add_all hash32 st ns = Ok st'.
Proof.
  intros Hns. revert st. induction Hns as [|n ns Hn Hns IH]; intros st.
  - by eexists.
  - simpl. rewrite add_valid by done. simpl. apply IH.
Qed.


End roundtrip.

Lemma elem_of_present_after_adds (S ns : list string) (x : string) :
  x ∈ present_after S (OpAdd <$> ns) ↔ x ∈ S ∨ x ∈ ns.
Proof.
  revert S. induction ns as [|n ns IH]; intros S; csimpl.
  - rewrite elem_of_nil. tauto.
  - rewrite IH, !elem_of_cons. tauto.
Qed.

Lemma option_ext {A : Type} (o1 o2 : option A) :
  (∀ a, o1 = Some a ↔ o2 = Some a) → o1 = o2.
Proof.
  intros H. destruct o1 as [a|], o2 as [b|]; try done.
  - by apply H.
  - symmetry. by apply (H a).
  - by apply (H b).
Qed.

(** C4, as the code has it. When no two nodes used in the history of a
    ring [R] share a position, [fromJSON(toJSON(R))] returns a ring that
    agrees with [R] on [get] and [getN] for every key and count, and has the
    same [size] and the same [nodes] up to order. *)
Theorem roundtrip_collision_free (hash32 : string → Z)
    (options : HashOrbitOptions) (ops : list op) (R : HashOrbit) :
  run_ops hash32 (constructor options) ops = Ok R →
  collision_free hash32 (replicas R) (op_node <$> ops) →
  roundtrip_agrees hash32 R.
Proof.
  intros Hrun Hfree.
  pose proof (reachable_inv hash32 _ _ _ Hrun) as Hinv.
  set (r := replicas R) in *. set (U := op_node <$> ops) in *.
  assert (Forall (λ o, op_node o ∈ U) ops) as Hops.
  { apply Forall_forall. intros o Ho. by apply list_elem_of_fmap_2. }
  assert (placed hash32 r [] (ring (constructor options))) as Hempty.
  { intros p n. simpl. rewrite elem_of_nil. split; [done | tauto]. }
  (* the original ring holds the positions of the nodes present *)
  assert (replicas (constructor options) = r) as Hr0
    by (symmetry; by eapply run_ops_replicas).
  destruct (run_ops_placed hash32 r U Hfree _ ops R []
              (constructor_inv options) Hr0 Hempty (list_subseteq_nil U)
              Hops Hrun) as [_ HR].
  assert (present_after [] ops ⊆ U) as HS.
  { apply present_after_subseteq; [apply list_subseteq_nil | done]. }
  (* the nodes of [toJSON()] are valid and among those present *)
  assert (∀ n, n ∈ nodes R → n ∈ present_after [] ops) as Hnodes.
  { intros n Hn. apply (proj1 (elem_of_of_list _ _)) in Hn.
    apply values_get in Hn as [p Hp]; [| by destruct Hinv].
    by apply HR in Hp as [? _]. }
  assert (Forall valid_identifier (nodes R)) as Hvalid.
  { apply Forall_forall. intros n Hn.
    apply (proj1 (elem_of_of_list _ _)) in Hn.
    destruct Hinv as [_ _ Hv]. rewrite Forall_forall in Hv. auto. }
  destruct (add_all_valid hash32
              (constructor {| opt_replicas := Some r |}) (nodes R) Hvalid)
    as [R' HR'].
  exists R'. split; [done |].
  pose proof HR' as Hrun'. rewrite add_all_run_ops in Hrun'.
  pose proof (reachable_inv hash32 _ _ _ Hrun') as Hinv'.
  assert (Forall (λ o, op_node o ∈ U) (OpAdd <$> nodes R)) as Hops'.
  { apply Forall_forall. intros o [n [-> Hn]]%list_elem_of_fmap. simpl. auto. }
  assert (placed hash32 r []
            (ring (constructor {| opt_replicas := Some r |}))) as Hempty'.
  { intros p n. simpl. rewrite elem_of_nil. split; [done | tauto]. }
  destruct (run_ops_placed hash32 r U Hfree
              (constructor {| opt_replicas := Some r |})
              (OpAdd <$> nodes R) R' []
              (constructor_inv _) eq_refl Hempty' (list_subseteq_nil U)
              Hops' Hrun') as [_ HR'placed].
  (* the two maps answer alike *)
  assert (∀ p, JsMap.get p (ring R') = JsMap.get p (ring R)) as Hget.
  { intros p. apply option_ext. intros n.
    rewrite (HR'placed p n), (HR p n), elem_of_present_after_adds.
    rewrite elem_of_nil. split.
    - intros [[[]|Hn] Hp]. auto.
    - intros [Hn Hp]. split; [| done]. right.
      apply (proj2 (elem_of_of_list _ _)). apply (get_Some_values p).
      by apply HR. }
  destruct (same_get_same_ring R R' Hinv Hinv' Hget) as (Hidx & Hsize & Hperm).
  split_and!.
  - intros key _. by apply get_ext.
  - intros key count _. by apply getN_ext.
  - unfold size, JsSet.size. by apply Permutation_length.
  - done.
Qed.

Lemma roundtrip_collision_free_witness :
  roundtrip_agrees checksum
    {| ring := [(196, "Z"); (197, "Z"); (203, "a"); (204, "a")];
       sortedKeys := [196; 197; 203; 204];
       replicas := 2 |}.
Proof.
  apply (roundtrip_collision_free checksum {| opt_replicas := Some 2 |}
           [OpAdd "Z"; OpAdd "a"]).
  - reflexivity.
  - intros n1 n2 p Hn1 Hn2 Hp1 Hp2.
    apply list_elem_of_In in Hn1, Hn2. simpl in Hn1, Hn2.
    destruct Hn1 as [<-|[<-|[]]], Hn2 as [<-|[<-|[]]]; try reflexivity;
      vm_compute in Hp1, Hp2;
      apply list_elem_of_In in Hp1, Hp2; simpl in Hp1, Hp2;
      destruct Hp1 as [<-|[<-|[]]], Hp2 as [Hp2|[Hp2|[]]]; discriminate Hp2.
Defined.

(** C4, as the specification states it, fails where two nodes share a
    position. Under the checksum hash "b:0" and "a:1" both land on 204:
    after [add("b")] then [add("a")] position 204 is owned by "a", [nodes]
    is ["a", "b"], and the ring rebuilt in that order gives 204 to "b". *)
Lemma roundtrip_fails_on_collision :
  run_ops checksum (constructor {| opt_replicas := Some 2 |})
    [OpAdd "b"; OpAdd "a"]
  = Ok {| ring := [(204, "a"); (205, "b"); (203, "a")];
          sortedKeys := [203; 204; 205];
          replicas := 2 |}
  ∧ ¬ roundtrip_agrees checksum
        {| ring := [(204, "a"); (205, "b"); (203, "a")];
           sortedKeys := [203; 204; 205];
           replicas := 2 |}.
Proof.
  split; [reflexivity |].
  intros (R' & Hfrom & Hget & _).
  vm_compute in Hfrom. injection Hfrom as <-.
  assert (valid_identifier "b:0") as Hkey by (split; [done | simpl; lia]).
  specialize (Hget "b:0" Hkey). vm_compute in Hget. discriminate Hget.
Qed.

(** ** Removing a node that is not present *)

(** Without collisions, a node that is not present (never added, or removed
    since) has none of its positions in the entry map. *)
Lemma not_present_absent (hash32 : string → Z) (options : HashOrbitOptions)
    (ops : list op) (st : HashOrbit) (node : string) :
  run_ops hash32 (constructor options) ops = Ok st →
  collision_free hash32 (replicas st) (node :: (op_node <$> ops)) →
  node ∉ present_after [] ops →
  ∀ p, p ∈ positions hash32 (replicas st) node →
       JsMap.get p (ring st) = None.
Proof.
  intros Hrun Hfree Hnode p Hp.
  assert (Forall (λ o, op_node o ∈ node :: (op_node <$> ops)) ops) as Hops.
  { apply Forall_forall. intros o Ho. right. by apply list_elem_of_fmap_2. }
  assert (placed hash32 (replicas st) [] (ring (constructor options)))
    as Hempty.
  { intros q n. simpl. rewrite elem_of_nil. split; [done | tauto]. }
  destruct (run_ops_placed hash32 (replicas st) _ Hfree _ ops st []
              (constructor_inv options)
              (eq_sym (run_ops_replicas hash32 _ _ _ Hrun)) Hempty
              (list_subseteq_nil _) Hops Hrun) as [_ Hplaced].
  destruct (JsMap.get p (ring st)) as [n|] eqn:Hget; [| done].
  apply Hplaced in Hget as [Hn Hpn].
  assert (n = node) as ->; [| done].
  apply (Hfree n node p); [right | left | done | done].
  assert (present_after [] ops ⊆ op_node <$> ops) as Hsub; [| by apply Hsub].
  apply present_after_subseteq; [apply list_subseteq_nil |].
  apply Forall_forall. intros o Ho. by apply list_elem_of_fmap_2.
Qed.

Lemma remove_not_present (hash32 : string → Z) (options : HashOrbitOptions)
    (ops : list op) (st : HashOrbit) (node : string) :
  run_ops hash32 (constructor options) ops = Ok st →
  collision_free hash32 (replicas st) (node :: (op_node <$> ops)) →
  node ∉ present_after [] ops →
  valid_identifier node →
  remove hash32 st node = Ok st.
Proof.
  intros Hrun Hfree Hnode Hvalid.
  apply remove_absent_inv; [by eapply reachable_inv | done |].
  by eapply not_present_absent.
Qed.

(** With a collision the positions of a node never added need not be
    absent: under the checksum hash "11:0" and "b:0" both land on 204, and
    [remove("11")] empties a ring that holds "b" only. *)
Example remove_never_added_collision :
  ∃ st st',
    run_ops checksum (constructor {| opt_replicas := Some 1 |}) [OpAdd "b"]
      = Ok st
    ∧ remove checksum st "11" = Ok st'
    ∧ size st = 1%nat ∧ size st' = 0%nat.
Proof. do 2 eexists. split_and!; reflexivity. Qed.

(** * Further properties of the ring *)

(** ** Where a lookup lands *)

Lemma successor_unique ks t p p' :
  successor ks t p → successor ks t p' → p = p'.
Proof.
  intros [Hp [[Htp Hmin]|[Hall Hmin]]] [Hp' [[Htp' Hmin']|[Hall' Hmin']]].
  - pose proof (Hmin p' Hp' Htp'). pose proof (Hmin' p Hp Htp). lia.
  - specialize (Hall' p Hp). lia.
  - specialize (Hall p' Hp'). lia.
  - pose proof (Hmin p' Hp'). pose proof (Hmin' p Hp). lia.
Qed.

(** A successor among more positions that is one of fewer is their
    successor too. *)
Lemma successor_subseteq ks ks' t p :
  ks ⊆ ks' → successor ks' t p → p ∈ ks → successor ks t p.
Proof.
  intros Hsub [_ [[Htp Hmin]|[Hall Hmin]]] Hp; (split; [done |]).
  - left. split; [done |]. intros q Hq. apply Hmin. by apply Hsub.
  - right. split; intros q Hq; [apply Hall | apply Hmin]; by apply Hsub.
Qed.

Lemma successor_proper ks ks' t p :
  (∀ q, q ∈ ks ↔ q ∈ ks') → successor ks t p → successor ks' t p.
Proof.
  intros Heq Hs. apply (successor_subseteq ks' ks).
  - intros q. apply Heq.
  - done.
  - apply Heq. by destruct Hs.
Qed.

Lemma lower_bound_successor ks t i p :
  StronglySorted Z.le ks → lower_bound ks t i →
  ks !! (if decide (i < length ks)%nat then i else 0%nat) = Some p →
  successor ks t p.
Proof.
  intros Hs (Hi & Hlt & Hge) Hp. split; [by eapply list_elem_of_lookup_2 |].
  case_decide as Hin.
  - left. split; [by apply (Hge i) |].
    intros q [j Hj]%list_elem_of_lookup_1 Htq.
    destruct (decide (j < i)%nat) as [Hji|Hji].
    + specialize (Hlt j q Hji Hj). lia.
    + apply (StronglySorted_le_lookup ks i j); [done | lia | done..].
  - right. split.
    + intros q [j Hj]%list_elem_of_lookup_1. apply (Hlt j); [| done].
      apply lookup_lt_Some in Hj. lia.
    + intros q [j Hj]%list_elem_of_lookup_1.
      apply (StronglySorted_le_lookup ks 0 j); [done | lia | done..].
Qed.

(** [get] in terms of the entry map alone. *)
Lemma get_successor_owner (hash32 : string → Z) (st : HashOrbit)
    (key : string) :
  ring_inv st → JsMap.size (ring st) ≠ 0%nat → valid_identifier key →
  ∃ p n, successor (JsMap.keys (ring st)) (hash32 key) p
    ∧ JsMap.get p (ring st) = Some n
    ∧ get hash32 st key = Ok (Some n).
Proof.
  intros Hinv Hsize Hkey.
  pose proof (inv_nonempty st Hinv Hsize) as Hpos.
  pose proof (wrap_lt st (binarySearch st (hash32 key)) Hpos) as Hlt.
  destruct (node_at_Some st _ Hinv Hlt) as (p & n & Hp & Hn & Hat & _).
  exists p, n. split_and!; [| done |].
  - apply (successor_proper (sortedKeys st)).
    + intros q. rewrite (inv_index st Hinv). apply elem_of_sort_keys.
    + apply (lower_bound_successor _ _ (binarySearch st (hash32 key))).
      * rewrite (inv_index st Hinv). apply sort_keys_StronglySorted.
      * by apply binarySearch_lower_bound.
      * unfold wrap in Hp. by repeat case_decide; try lia.
  - rewrite get_valid by done. rewrite decide_False by done. by rewrite Hat.
Qed.

Lemma get_of_successor (hash32 : string → Z) (st : HashOrbit)
    (key : string) (p : Z) (n : string) :
  ring_inv st → valid_identifier key →
  successor (JsMap.keys (ring st)) (hash32 key) p →
  JsMap.get p (ring st) = Some n →
  get hash32 st key = Ok (Some n).
Proof.
  intros Hinv Hkey Hs Hn.
  assert (JsMap.size (ring st) ≠ 0%nat) as Hsize.
  { destruct Hs as [Hp _]. unfold JsMap.keys, JsMap.size in *.
    destruct (ring st); [by apply elem_of_nil in Hp | done]. }
  destruct (get_successor_owner hash32 st key Hinv Hsize Hkey)
    as (p' & n' & Hs' & Hn' & ->).
  assert (p' = p) as -> by by eapply successor_unique.
  congruence.
Qed.

(** What a [get] that returns a node tells. *)
Lemma get_Some_inv (hash32 : string → Z) (st : HashOrbit) (key n : string) :
  ring_inv st → get hash32 st key = Ok (Some n) →
  valid_identifier key
  ∧ ∃ p, successor (JsMap.keys (ring st)) (hash32 key) p
      ∧ JsMap.get p (ring st) = Some n.
Proof.
  intros Hinv Hget.
  assert (valid_identifier key) as Hkey.
  { unfold get in Hget.
    destruct (validateIdentifier key "Key") as [u|] eqn:Hv; [| done].
    by eapply validateIdentifier_valid. }
  split; [done |].
  assert (JsMap.size (ring st) ≠ 0%nat) as Hsize.
  { intros Hz. rewrite get_valid in Hget by done.
    by rewrite decide_True in Hget. }
  destruct (get_successor_owner hash32 st key Hinv Hsize Hkey)
    as (p & n' & Hs & Hn & Hget').
  exists p. split; [done |]. congruence.
Qed.

(** X1. In every state of a ring, what [get] returns for a valid key is
    either [undefined], and then the ring has no node, or one of [nodes]. *)
Theorem get_in_nodes (hash32 : string → Z) (options : HashOrbitOptions)
    (ops : list op) (st : HashOrbit) (key : string) :
  run_ops hash32 (constructor options) ops = Ok st →
  valid_identifier key →
  (get hash32 st key = Ok None ∧ nodes st = [])
  ∨ (∃ n, get hash32 st key = Ok (Some n) ∧ n ∈ nodes st).
Proof.
  intros Hinv%reachable_inv Hkey.
  destruct (decide (JsMap.size (ring st) = 0%nat)) as [Hz|Hnz].
  - left. rewrite get_valid by done. rewrite decide_True by done.
    split; [done |]. unfold nodes, getUniqueNodes.
    by destruct (ring st).
  - right. destruct (get_successor_owner hash32 st key Hinv Hnz Hkey)
      as (p & n & _ & Hn & Hget).
    exists n. split; [done |].
    apply (proj2 (elem_of_of_list _ _)). by eapply get_Some_values.
Qed.

Lemma get_in_nodes_witness :
  (get checksum {| ring := [(204, "a"); (205, "b"); (203, "a")];
                   sortedKeys := [203; 204; 205];
                   replicas := 2 |} "zz" = Ok None
   ∧ nodes {| ring := [(204, "a"); (205, "b"); (203, "a")];
              sortedKeys := [203; 204; 205];
              replicas := 2 |} = [])
  ∨ (∃ n, get checksum {| ring := [(204, "a"); (205, "b"); (203, "a")];
                          sortedKeys := [203; 204; 205];
                          replicas := 2 |} "zz" = Ok (Some n)
       ∧ n ∈ nodes {| ring := [(204, "a"); (205, "b"); (203, "a")];
                      sortedKeys := [203; 204; 205];
                      replicas := 2 |}).
Proof.
  apply (get_in_nodes checksum {| opt_replicas := Some 2 |}
           [OpAdd "b"; OpAdd "a"]).
  - reflexivity.
  - split; [done | simpl; lia].
Defined.

(** X2. A valid key whose hash is itself a position of the ring gets the
    node that owns that position. *)
Theorem get_exact_position (hash32 : string → Z) (options : HashOrbitOptions)
    (ops : list op) (st : HashOrbit) (key n : string) :
  run_ops hash32 (constructor options) ops = Ok st →
  valid_identifier key →
  JsMap.get (hash32 key) (ring st) = Some n →
  get hash32 st key = Ok (Some n).
Proof.
  intros Hinv%reachable_inv Hkey Hn.
  apply (get_of_successor hash32 st key (hash32 key)); [done | done | | done].
  split; [by eapply get_Some_keys |].
  left. split; [lia |]. by intros q _ Hq.
Qed.

Lemma get_exact_position_witness :
  get checksum {| ring := [(204, "a"); (205, "b"); (203, "a")];
                  sortedKeys := [203; 204; 205];
                  replicas := 2 |} "a:1" = Ok (Some "a").
Proof.
  apply (get_exact_position checksum {| opt_replicas := Some 2 |}
           [OpAdd "b"; OpAdd "a"]).
  - reflexivity.
  - split; [done | simpl; lia].
  - reflexivity.
Defined.

(** ** Entries and their owners *)

Lemma constructor_owned (hash32 : string → Z) options :
  owned hash32 (constructor options).
Proof. intros p n. simpl. done. Qed.

Lemma run_op_owned (hash32 : string → Z) st o st' :
  ring_inv st → owned hash32 st → run_op hash32 st o = Ok st' →
  owned hash32 st'.
Proof.
  intros Hinv Hown Hrun p n. destruct o as [node|node]; simpl in Hrun.
  - apply add_Ok in Hrun as [_ ->]. simpl. rewrite get_add_loop.
    case_decide as Hp; [by intros [= <-] | apply Hown].
  - apply remove_Ok in Hrun as [_ ->]. simpl.
    rewrite get_remove_loop by by destruct Hinv.
    case_decide as Hp; [done | apply Hown].
Qed.

Lemma run_ops_owned (hash32 : string → Z) st ops st' :
  ring_inv st → owned hash32 st → run_ops hash32 st ops = Ok st' →
  owned hash32 st'.
Proof.
  revert st. induction ops as [|o ops IH]; intros st Hinv Hown.
  - by intros [= <-].
  - intros (st1 & H1 & H2)%run_ops_cons.
    apply (IH st1); [by eapply run_op_inv | by eapply run_op_owned | done].
Qed.

Lemma reachable_owned (hash32 : string → Z) options ops st :
  run_ops hash32 (constructor options) ops = Ok st → owned hash32 st.
Proof.
  apply run_ops_owned; [apply constructor_inv | apply constructor_owned].
Qed.

(** What [get] and [getN] return are values of the entry map, in any
    state. *)
Lemma get_Some_value (hash32 : string → Z) (st : HashOrbit) (key n : string) :
  get hash32 st key = Ok (Some n) → n ∈ JsMap.values (ring st).
Proof.
  unfold get. destruct (validateIdentifier key "Key"); simpl; [| done].
  case_decide; [done |]. intros [= Hat]. by eapply node_at_values.
Qed.

Lemma walk_inv_start (st : HashOrbit) : walk_inv st ([], []).
Proof.
  split; simpl; [apply NoDup_nil_2 | done |]. by intros x ?%elem_of_nil.
Qed.

Lemma getN_Ok_values (hash32 : string → Z) (st : HashOrbit) (key : string)
    (count : Z) (l : list string) :
  getN hash32 st key count = Ok l →
  NoDup l ∧ ∀ n, n ∈ l → n ∈ JsMap.values (ring st).
Proof.
  unfold getN. destruct (validateIdentifier key "Key"); simpl; [| done].
  case_decide.
  - intros [= <-]. split; [apply NoDup_nil_2 | by intros n ?%elem_of_nil].
  - intros [= <-]. apply getN_loop_inv, walk_inv_start.
Qed.

Lemma positions_nonempty (hash32 : string → Z) (r : Z) (node : string) :
  1 ≤ r → hash32 (virtual_key node 0) ∈ positions hash32 r node.
Proof.
  intros Hr. unfold positions, replica_indices.
  apply (list_elem_of_fmap_2 (λ i, hash32 (virtual_key node i))).
  apply elem_of_seq. lia.
Qed.

Lemma length_positions (hash32 : string → Z) (r : Z) (node : string) :
  length (positions hash32 r node) = Z.to_nat r.
Proof.
  unfold positions, replica_indices. by rewrite length_fmap, length_seq.
Qed.

(** X3. In every state of a ring with [replicas >= 1], [add] of a valid
    node identifier makes the node one of [nodes], gives it every one of
    its positions, and sends to it every valid key that hashes onto one of
    them. *)
Theorem add_present (hash32 : string → Z) (options : HashOrbitOptions)
    (ops : list op) (st : HashOrbit) (node : string) :
  run_ops hash32 (constructor options) ops = Ok st →
  valid_identifier node →
  1 ≤ replicas st →
  ∃ st', add hash32 st node = Ok st'
    ∧ node ∈ nodes st'
    ∧ (1 ≤ size st')%nat
    ∧ (∀ p, p ∈ positions hash32 (replicas st) node →
            JsMap.get p (ring st') = Some node)
    ∧ (∀ key, valid_identifier key →
              hash32 key ∈ positions hash32 (replicas st) node →
              get hash32 st' key = Ok (Some node)).
Proof.
  intros Hinv%reachable_inv Hnode Hr.
  destruct (add hash32 st node) as [st'|] eqn:Hadd;
    [| by rewrite add_valid in Hadd].
  pose proof (add_inv hash32 _ _ _ Hinv Hadd) as Hinv'.
  apply add_Ok in Hadd as [_ Hst']. exists st'. split; [done |].
  assert (∀ p, p ∈ positions hash32 (replicas st) node →
               JsMap.get p (ring st') = Some node) as Hpos.
  { intros p Hp. rewrite Hst'. simpl. rewrite get_add_loop.
    by rewrite decide_True. }
  assert (node ∈ nodes st') as Hin.
  { apply (proj2 (elem_of_of_list _ _)).
    eapply get_Some_values, Hpos. by apply positions_nonempty. }
  split_and!; [done | | done |].
  - unfold size, JsSet.size. fold (nodes st').
    destruct (nodes st'); [by apply elem_of_nil in Hin | simpl; lia].
  - intros key Hkey Hhash.
    apply (get_of_successor hash32 st' key (hash32 key)); [done | done | | auto].
    split; [eapply get_Some_keys; by apply Hpos |].
    left. split; [lia |]. by intros q _ Hq.
Qed.

Lemma add_present_witness :
  ∃ st', add checksum {| ring := [(204, "a"); (205, "b"); (203, "a")];
                         sortedKeys := [203; 204; 205];
                         replicas := 2 |} "c" = Ok st'
    ∧ "c" ∈ nodes st'
    ∧ (1 ≤ size st')%nat
    ∧ (∀ p, p ∈ positions checksum 2 "c" →
            JsMap.get p (ring st') = Some "c")
    ∧ (∀ key, valid_identifier key →
              checksum key ∈ positions checksum 2 "c" →
              get checksum st' key = Ok (Some "c")).
Proof.
  apply (add_present checksum {| opt_replicas := Some 2 |}
           [OpAdd "b"; OpAdd "a"]).
  - reflexivity.
  - split; [done | simpl; lia].
  - simpl. lia.
Defined.

(** X4. In every state of a ring, [remove] of a valid node identifier
    leaves a ring without that node: it is not in [nodes], and no [get] or
    [getN] returns it. *)
Theorem remove_gone (hash32 : string → Z) (options : HashOrbitOptions)
    (ops : list op) (st : HashOrbit) (node : string) :
  run_ops hash32 (constructor options) ops = Ok st →
  valid_identifier node →
  ∃ st', remove hash32 st node = Ok st'
    ∧ (node ∉ nodes st')
    ∧ (∀ key, get hash32 st' key ≠ Ok (Some node))
    ∧ (∀ key count l, getN hash32 st' key count = Ok l → node ∉ l).
Proof.
  intros Hrun Hnode.
  pose proof (reachable_inv hash32 _ _ _ Hrun) as Hinv.
  pose proof (reachable_owned hash32 _ _ _ Hrun) as Hown.
  destruct (remove hash32 st node) as [st'|] eqn:Hrem;
    [| by rewrite remove_valid in Hrem].
  pose proof (remove_inv hash32 _ _ _ Hinv Hrem) as Hinv'.
  exists st'. split; [done |].
  assert (node ∉ JsMap.values (ring st')) as Hout.
  { intros [p Hp]%values_get; [| by destruct Hinv'].
    apply remove_Ok in Hrem as [_ ->]. simpl in Hp.
    rewrite get_remove_loop in Hp by by destruct Hinv.
    case_decide as Hpos; [done |]. by apply Hpos, Hown. }
  split_and!.
  - intros Hin. by apply Hout, elem_of_of_list.
  - intros key Hget. by apply Hout, (get_Some_value hash32 st' key).
  - intros key count l Hl Hin.
    by apply Hout, (getN_Ok_values hash32 st' key count l).
Qed.

Lemma remove_gone_witness :
  ∃ st', remove checksum {| ring := [(204, "a"); (205, "b"); (203, "a")];
                            sortedKeys := [203; 204; 205];
                            replicas := 2 |} "a" = Ok st'
    ∧ ("a" ∉ nodes st')
    ∧ (∀ key, get checksum st' key ≠ Ok (Some "a"))
    ∧ (∀ key count l, getN checksum st' key count = Ok l → "a" ∉ l).
Proof.
  apply (remove_gone checksum {| opt_replicas := Some 2 |}
           [OpAdd "b"; OpAdd "a"]).
  - reflexivity.
  - split; [done | simpl; lia].
Defined.

(** X5. In every state of a ring, a second [remove] of the same valid node
    identifier returns the state the first one left. *)
Theorem remove_idempotent (hash32 : string → Z) (options : HashOrbitOptions)
    (ops : list op) (st : HashOrbit) (node : string) :
  run_ops hash32 (constructor options) ops = Ok st →
  valid_identifier node →
  ∃ st1, remove hash32 st node = Ok st1 ∧ remove hash32 st1 node = Ok st1.
Proof.
  intros Hinv%reachable_inv Hnode.
  destruct (remove hash32 st node) as [st1|] eqn:Hrem;
    [| by rewrite remove_valid in Hrem].
  pose proof (remove_inv hash32 _ _ _ Hinv Hrem) as Hinv1.
  exists st1. split; [done |].
  apply remove_absent_inv; [done | done |].
  apply remove_Ok in Hrem as [_ ->]. simpl. intros p Hp.
  rewrite get_remove_loop by by destruct Hinv. by rewrite decide_True.
Qed.

Lemma remove_idempotent_witness :
  ∃ st1, remove checksum {| ring := [(204, "a"); (205, "b"); (203, "a")];
                            sortedKeys := [203; 204; 205];
                            replicas := 2 |} "a" = Ok st1
    ∧ remove checksum st1 "a" = Ok st1.
Proof.
  apply (remove_idempotent checksum {| opt_replicas := Some 2 |}
           [OpAdd "b"; OpAdd "a"]).
  - reflexivity.
  - split; [done | simpl; lia].
Defined.

(** ** What [getN] returns, in any state *)

Lemma getN_visit_length st idx acc :
  (length (getN_visit st idx acc).2 ≤ S (length acc.2))%nat.
Proof.
  unfold getN_visit. destruct (node_at st (wrap st idx)) as [node|]; [| lia].
  destruct (bool_decide (node ≠ "") && negb (JsSet.has node acc.1)); simpl;
    [rewrite length_app; simpl |]; lia.
Qed.

Lemma getN_visit_nonempty st idx acc :
  "" ∉ acc.2 → "" ∉ (getN_visit st idx acc).2.
Proof.
  intros Hacc. unfold getN_visit.
  destruct (node_at st (wrap st idx)) as [node|]; [| done].
  case_bool_decide as Hne; simpl; [| done].
  destruct (negb (JsSet.has node acc.1)); simpl; [| done].
  intros [?|Heq%list_elem_of_singleton]%elem_of_app; [done | congruence].
Qed.

Lemma getN_loop_length st count n idx acc :
  (length (getN_loop st count n idx acc) ≤ length acc.2 + n)%nat.
Proof.
  revert idx acc. induction n as [|n IH]; intros idx acc; simpl; [lia |].
  case_bool_decide; [| lia].
  etrans; [apply IH |]. pose proof (getN_visit_length st idx acc). lia.
Qed.

Lemma getN_loop_count st count n idx acc :
  Z.of_nat (length acc.2) ≤ count →
  Z.of_nat (length (getN_loop st count n idx acc)) ≤ count.
Proof.
  revert idx acc. induction n as [|n IH]; intros idx acc Hacc; simpl; [done |].
  case_bool_decide; [| done].
  apply IH. pose proof (getN_visit_length st idx acc). lia.
Qed.

Lemma getN_loop_nonempty st count n idx acc :
  "" ∉ acc.2 → "" ∉ getN_loop st count n idx acc.
Proof.
  revert idx acc. induction n as [|n IH]; intros idx acc Hacc; simpl; [done |].
  case_bool_decide; [| done]. by apply IH, getN_visit_nonempty.
Qed.

Lemma getN_loop_prefix_count st count count' n idx acc :
  count ≤ count' →
  getN_loop st count n idx acc `prefix_of` getN_loop st count' n idx acc.
Proof.
  intros Hle. revert idx acc.
  induction n as [|n IH]; intros idx acc; simpl; [done |].
  case_bool_decide as Hc.
  - rewrite bool_decide_true by lia. apply IH.
  - case_bool_decide; [| done].
    destruct (getN_loop_prefix st count' n (S (wrap st idx))
                (getN_visit st idx acc)) as [ext ->].
    destruct (getN_visit_prefix st idx acc) as [ext' ->].
    rewrite <-(assoc_L (++)). by eexists.
Qed.

(** X6. Whatever the state of the ring, the array [getN] returns has no
    duplicate and no empty string, has at most [count] elements (none for
    [count <= 0]) and at most as many as the ring has positions, and holds
    values of the entry map only. *)
Theorem getN_bounds (hash32 : string → Z) (st : HashOrbit) (key : string)
    (count : Z) (l : list string) :
  getN hash32 st key count = Ok l →
  NoDup l
  ∧ ("" ∉ l)
  ∧ Z.of_nat (length l) ≤ Z.max 0 count
  ∧ (length l ≤ length (sortedKeys st))%nat
  ∧ (∀ n, n ∈ l → n ∈ JsMap.values (ring st)).
Proof.
  intros Hl. destruct (getN_Ok_values hash32 st key count l Hl) as [Hnd Hval].
  split_and!; [done | | | | done].
  - unfold getN in Hl. destruct (validateIdentifier key "Key"); [| done].
    simpl in Hl. case_decide; injection Hl as <-.
    + apply not_elem_of_nil.
    + apply getN_loop_nonempty. apply not_elem_of_nil.
  - unfold getN in Hl. destruct (validateIdentifier key "Key"); [| done].
    simpl in Hl. case_decide; injection Hl as <-.
    + simpl. lia.
    + etrans; [apply getN_loop_count; simpl; lia | lia].
  - unfold getN in Hl. destruct (validateIdentifier key "Key"); [| done].
    simpl in Hl. case_decide; injection Hl as <-.
    + simpl. lia.
    + etrans; [apply getN_loop_length | simpl; lia].
Qed.

Lemma getN_bounds_witness :
  NoDup ["b"; "a"]
  ∧ ("" ∉ ["b"; "a"])
  ∧ Z.of_nat (length ["b"; "a"]) ≤ Z.max 0 5
  ∧ (length ["b"; "a"] ≤ length [203; 204; 205])%nat
  ∧ (∀ n, n ∈ ["b"; "a"] →
          n ∈ JsMap.values [(204, "a"); (205, "b"); (203, "a")]).
Proof.
  apply (getN_bounds checksum
           {| ring := [(204, "a"); (205, "b"); (203, "a")];
              sortedKeys := [203; 204; 205];
              replicas := 2 |} "b:1" 5 ["b"; "a"]).
  reflexivity.
Defined.

(** X7. Asking [getN] for more nodes only extends the answer: for
    [count <= count'], what [getN(key, count)] returns is a prefix of what
    [getN(key, count')] returns, in any state. *)
Theorem getN_prefix (hash32 : string → Z) (st : HashOrbit) (key : string)
    (count count' : Z) (l : list string) :
  getN hash32 st key count = Ok l →
  count ≤ count' →
  ∃ l', getN hash32 st key count' = Ok l' ∧ l `prefix_of` l'.
Proof.
  unfold getN. destruct (validateIdentifier key "Key"); [| done]. simpl.
  intros Hl Hle. case_decide as Hc; injection Hl as <-.
  - case_decide; eexists; (split; [done | apply prefix_nil]).
  - rewrite decide_False by (intros [?|?]; apply Hc; [by left | right; lia]).
    eexists. split; [done |]. by apply getN_loop_prefix_count.
Qed.

Lemma getN_prefix_witness :
  ∃ l', getN checksum {| ring := [(204, "a"); (205, "b"); (203, "a")];
                         sortedKeys := [203; 204; 205];
                         replicas := 2 |} "b:1" 2 = Ok l'
    ∧ ["b"] `prefix_of` l'.
Proof.
  apply (getN_prefix checksum
           {| ring := [(204, "a"); (205, "b"); (203, "a")];
              sortedKeys := [203; 204; 205];
              replicas := 2 |} "b:1" 1 2 ["b"]).
  - reflexivity.
  - lia.
Defined.

(** ** How many positions a ring has *)

Lemma length_bind_const {A B : Type} (f : A → list B) (l : list A) (c : nat) :
  (∀ x, length (f x) = c) → length (l ≫= f) = (length l * c)%nat.
Proof.
  intros Hf. induction l as [|x l IH]; [done |].
  rewrite bind_cons, length_app, Hf, IH. simpl. lia.
Qed.

(** X8. In every state of a ring the number of positions (what [toString]
    prints as [positions]) is at least [size] and at most [size] times
    [replicas]. *)
Theorem positions_bound (hash32 : string → Z) (options : HashOrbitOptions)
    (ops : list op) (st : HashOrbit) :
  run_ops hash32 (constructor options) ops = Ok st →
  (size st ≤ length (sortedKeys st))%nat
  ∧ (length (sortedKeys st) ≤ size st * Z.to_nat (replicas st))%nat.
Proof.
  intros Hrun.
  pose proof (reachable_inv hash32 _ _ _ Hrun) as Hinv.
  pose proof (reachable_owned hash32 _ _ _ Hrun) as Hown.
  rewrite (inv_index st Hinv), length_sort_keys. split.
  - unfold size, JsSet.size, getUniqueNodes.
    rewrite <-(length_fmap snd (ring st)).
    apply submseteq_length, NoDup_submseteq; [apply NoDup_of_list |].
    intros n. apply elem_of_of_list.
  - rewrite <-(length_fmap fst (ring st)).
    rewrite <-(length_bind_const (positions hash32 (replicas st)) (nodes st))
      by apply length_positions.
    apply submseteq_length, NoDup_submseteq; [by destruct Hinv |].
    intros p [n Hn]%keys_get. apply list_elem_of_bind. exists n.
    split; [by apply Hown |].
    apply (proj2 (elem_of_of_list _ _)). by eapply get_Some_values.
Qed.

Lemma positions_bound_witness :
  Nat.le (size {| ring := [(204, "a"); (205, "b"); (203, "a")];
                  sortedKeys := [203; 204; 205];
                  replicas := 2 |}) 3
  ∧ Nat.le 3 (size {| ring := [(204, "a"); (205, "b"); (203, "a")];
                      sortedKeys := [203; 204; 205];
                      replicas := 2 |} * 2).
Proof.
  apply (positions_bound checksum {| opt_replicas := Some 2 |}
           [OpAdd "b"; OpAdd "a"]
           {| ring := [(204, "a"); (205, "b"); (203, "a")];
              sortedKeys := [203; 204; 205];
              replicas := 2 |}).
  reflexivity.
Defined.

(** [toString], run. *)
Example toString_run :
  toString (constructor {| opt_replicas := None |})
    = "HashOrbit(nodes=0, positions=0, replicas=150)"
  ∧ toString {| ring := [(204, "a"); (205, "b"); (203, "a")];
                sortedKeys := [203; 204; 205];
                replicas := 2 |}
    = "HashOrbit(nodes=2, positions=3, replicas=2)"
  ∧ toString (constructor {| opt_replicas := Some (-3) |})
    = "HashOrbit(nodes=0, positions=0, replicas=-3)".
Proof. split_and!; reflexivity. Qed.

(** ** Membership changes move few keys *)

Lemma add_keys_subseteq (hash32 : string → Z) st node st' :
  add hash32 st node = Ok st' →
  JsMap.keys (ring st) ⊆ JsMap.keys (ring st').
Proof.
  intros [_ ->]%add_Ok q [n Hn]%keys_get. simpl.
  destruct (JsMap.get q (add_loop hash32 node (ring st)
              (replica_indices (replicas st)))) as [n'|] eqn:Hq;
    [by eapply get_Some_keys |].
  rewrite get_add_loop in Hq. case_decide; congruence.
Qed.

Lemma remove_keys_subseteq (hash32 : string → Z) st node st' :
  ring_inv st → remove hash32 st node = Ok st' →
  JsMap.keys (ring st') ⊆ JsMap.keys (ring st).
Proof.
  intros Hinv [_ ->]%remove_Ok q [n Hn]%keys_get. simpl in Hn.
  rewrite get_remove_loop in Hn by by destruct Hinv.
  case_decide; [done | by eapply get_Some_keys].
Qed.

(** X9. Adding a node moves a key to the new node or not at all: in every
    state of a ring, when [get(key)] returns a result and [add(node)] is
    called, [get(key)] afterwards returns the same result or [node]. *)
Theorem add_moves_to_new_only (hash32 : string → Z)
    (options : HashOrbitOptions) (ops : list op) (st st' : HashOrbit)
    (node key : string) (r : option string) :
  run_ops hash32 (constructor options) ops = Ok st →
  add hash32 st node = Ok st' →
  get hash32 st key = Ok r →
  get hash32 st' key = Ok r ∨ get hash32 st' key = Ok (Some node).
Proof.
  intros Hinv%reachable_inv Hadd Hget.
  pose proof (add_inv hash32 _ _ _ Hinv Hadd) as Hinv'.
  assert (valid_identifier key) as Hkey.
  { unfold get in Hget.
    destruct (validateIdentifier key "Key") as [u|] eqn:Hv; [| done].
    by eapply validateIdentifier_valid. }
  destruct (decide (JsMap.size (ring st') = 0%nat)) as [Hz'|Hnz'].
  { (* [replicas <= 0] and an empty ring *)
    left. rewrite get_valid in Hget |- * by done.
    rewrite decide_True by done.
    pose proof (add_keys_subseteq hash32 _ _ _ Hadd) as Hsub.
    destruct (ring st) as [|[q m] tl] eqn:Hring; [done |].
    destruct (ring st') eqn:Hring'; [| done].
    specialize (Hsub q). unfold JsMap.keys in Hsub. csimpl in Hsub.
    by apply elem_of_nil in Hsub; [| left]. }
  destruct (get_successor_owner hash32 st' key Hinv' Hnz' Hkey)
    as (p' & n' & Hs' & Hn' & Hget').
  pose proof Hadd as [_ Hst']%add_Ok.
  pose proof Hn' as Hn. rewrite Hst' in Hn. simpl in Hn.
  rewrite get_add_loop in Hn. case_decide as Hpos.
  { right. congruence. }
  left. destruct r as [n|].
  - apply (get_Some_inv hash32 st key n Hinv) in Hget as (_ & p & Hs & Hp).
    assert (p' = p) as ->; [| congruence].
    apply (successor_unique (JsMap.keys (ring st)) (hash32 key)); [| done].
    apply (successor_subseteq _ (JsMap.keys (ring st'))); [| done |].
    + by eapply add_keys_subseteq.
    + by eapply get_Some_keys.
  - destruct (decide (JsMap.size (ring st) = 0%nat)) as [Hz|Hnz].
    + by destruct (ring st).
    + destruct (get_successor_owner hash32 st key Hinv Hnz Hkey)
        as (p & n & _ & _ & Hsome). congruence.
Qed.

Lemma add_moves_to_new_only_witness :
  get checksum {| ring := [(204, "a"); (205, "c"); (203, "a"); (206, "c")];
                  sortedKeys := [203; 204; 205; 206];
                  replicas := 2 |} "b:1" = Ok (Some "b")
  ∨ get checksum {| ring := [(204, "a"); (205, "c"); (203, "a"); (206, "c")];
                    sortedKeys := [203; 204; 205; 206];
                    replicas := 2 |} "b:1" = Ok (Some "c").
Proof.
  apply (add_moves_to_new_only checksum {| opt_replicas := Some 2 |}
           [OpAdd "b"; OpAdd "a"]
           {| ring := [(204, "a"); (205, "b"); (203, "a")];
              sortedKeys := [203; 204; 205];
              replicas := 2 |}).
  - reflexivity.
  - reflexivity.
  - reflexivity.
Defined.

(** X10. Removing a node leaves the keys of the other nodes where they
    are: in every state of a ring in which no position of [node] is owned
    by another node, a key that [get] sends to a node other than [node] is
    sent to the same node after [remove(node)]. *)
Theorem remove_keeps_other_keys (hash32 : string → Z)
    (options : HashOrbitOptions) (ops : list op) (st st' : HashOrbit)
    (node key n : string) :
  run_ops hash32 (constructor options) ops = Ok st →
  remove hash32 st node = Ok st' →
  (∀ p m, p ∈ positions hash32 (replicas st) node →
          JsMap.get p (ring st) = Some m → m = node) →
  get hash32 st key = Ok (Some n) →
  n ≠ node →
  get hash32 st' key = Ok (Some n).
Proof.
  intros Hinv%reachable_inv Hrem Hown Hget Hne.
  pose proof (remove_inv hash32 _ _ _ Hinv Hrem) as Hinv'.
  apply (get_Some_inv hash32 st key n Hinv) in Hget as (Hkey & p & Hs & Hp).
  assert (JsMap.get p (ring st') = Some n) as Hp'.
  { pose proof Hrem as [_ ->]%remove_Ok. simpl.
    rewrite get_remove_loop by by destruct Hinv.
    rewrite decide_False; [done |]. intros Hpos. by apply Hne, (Hown p). }
  apply (get_of_successor hash32 st' key p); [done | done | | done].
  apply (successor_subseteq _ (JsMap.keys (ring st))); [| done |].
  - by eapply remove_keys_subseteq.
  - by eapply get_Some_keys.
Qed.

Lemma remove_keeps_other_keys_witness :
  get checksum {| ring := [(205, "b")]; sortedKeys := [205];
                  replicas := 2 |} "b:1" = Ok (Some "b").
Proof.
  apply (remove_keeps_other_keys checksum {| opt_replicas := Some 2 |}
           [OpAdd "b"; OpAdd "a"]
           {| ring := [(204, "a"); (205, "b"); (203, "a")];
              sortedKeys := [203; 204; 205];
              replicas := 2 |}
           {| ring := [(205, "b")]; sortedKeys := [205]; replicas := 2 |}
           "a" "b:1" "b").
  - reflexivity.
  - reflexivity.
  - intros p m Hp. vm_compute in Hp.
    apply list_elem_of_In in Hp. simpl in Hp.
    destruct Hp as [<-|[<-|[]]]; vm_compute; by intros [= <-].
  - reflexivity.
  - done.
Defined.

(** ** The replica count *)

(** X11. [replicas] is set by the constructor, to [options.replicas] or to
    150 when that is absent, and no [add] or [remove] changes it. *)
Theorem replicas_fixed (hash32 : string → Z) (options : HashOrbitOptions)
    (ops : list op) (st : HashOrbit) :
  run_ops hash32 (constructor options) ops = Ok st →
  replicas st = default 150 (opt_replicas options).
Proof. intros Hrun. by rewrite (run_ops_replicas hash32 _ _ _ Hrun). Qed.

Lemma replicas_fixed_witness :
  replicas {| ring := [(204, "a"); (205, "b"); (203, "a")];
              sortedKeys := [203; 204; 205];
              replicas := 2 |} = default 150 (Some 2).
Proof.
  apply (replicas_fixed checksum {| opt_replicas := Some 2 |}
           [OpAdd "b"; OpAdd "a"]).
  reflexivity.
Defined.

(** ** Rings without collisions answer by the nodes present *)

Lemma reachable_placed (hash32 : string → Z) (options : HashOrbitOptions)
    (ops : list op) (st : HashOrbit) (U : list string) :
  run_ops hash32 (constructor options) ops = Ok st →
  collision_free hash32 (replicas st) U →
  Forall (λ o, op_node o ∈ U) ops →
  placed hash32 (replicas st) (present_after [] ops) (ring st).
Proof.
  intros Hrun Hfree Hops.
  assert (placed hash32 (replicas st) [] (ring (constructor options)))
    as Hempty.
  { intros q n. simpl. rewrite elem_of_nil. split; [done | tauto]. }
  by destruct (run_ops_placed hash32 (replicas st) U Hfree _ ops st []
                 (constructor_inv options)
                 (eq_sym (run_ops_replicas hash32 _ _ _ Hrun)) Hempty
                 (list_subseteq_nil _) Hops Hrun).
Qed.

Lemma placed_same_answers (hash32 : string → Z) (r : Z) (S1 S2 : list string)
    (st1 st2 : HashOrbit) :
  ring_inv st1 → ring_inv st2 →
  placed hash32 r S1 (ring st1) → placed hash32 r S2 (ring st2) →
  (∀ n, n ∈ S1 ↔ n ∈ S2) →
  (∀ key, get hash32 st1 key = get hash32 st2 key)
  ∧ (∀ key count, getN hash32 st1 key count = getN hash32 st2 key count)
  ∧ size st1 = size st2
  ∧ nodes st1 ≡ₚ nodes st2.
Proof.
  intros Hinv1 Hinv2 H1 H2 HS.
  assert (∀ p, JsMap.get p (ring st1) = JsMap.get p (ring st2)) as Hget.
  { intros p. apply option_ext. intros n. by rewrite (H1 p n), (H2 p n), HS. }
  destruct (same_get_same_ring st2 st1 Hinv2 Hinv1 Hget)
    as (Hidx & Hsize & Hperm).
  split_and!.
  - intros key. by apply get_ext.
  - intros key count. by apply getN_ext.
  - unfold size, JsSet.size. by apply Permutation_length.
  - done.
Qed.

(** X12. The order of calls does not matter when no two nodes share a
    position: two histories from the same constructor options that leave
    the same nodes present (added, and not removed since) leave rings that
    agree on [get] and [getN] for every key and count, on [size], and on
    [nodes] up to order. *)
Theorem history_independent (hash32 : string → Z)
    (options : HashOrbitOptions) (ops1 ops2 : list op)
    (st1 st2 : HashOrbit) :
  run_ops hash32 (constructor options) ops1 = Ok st1 →
  run_ops hash32 (constructor options) ops2 = Ok st2 →
  collision_free hash32 (replicas st1) (op_node <$> (ops1 ++ ops2)) →
  (∀ n, n ∈ present_after [] ops1 ↔ n ∈ present_after [] ops2) →
  (∀ key, get hash32 st1 key = get hash32 st2 key)
  ∧ (∀ key count, getN hash32 st1 key count = getN hash32 st2 key count)
  ∧ size st1 = size st2
  ∧ nodes st1 ≡ₚ nodes st2.
Proof.
  intros Hrun1 Hrun2 Hfree HS.
  assert (replicas st2 = replicas st1) as Hr.
  { rewrite (run_ops_replicas hash32 _ _ _ Hrun1).
    by rewrite (run_ops_replicas hash32 _ _ _ Hrun2). }
  apply (placed_same_answers hash32 (replicas st1)
           (present_after [] ops1) (present_after [] ops2));
    [by eapply reachable_inv | by eapply reachable_inv | | | done].
  - apply (reachable_placed hash32 options ops1 st1 _ Hrun1 Hfree).
    apply Forall_forall. intros o Ho.
    apply list_elem_of_fmap_2, elem_of_app. by left.
  - rewrite <-Hr in Hfree |- *.
    apply (reachable_placed hash32 options ops2 st2 _ Hrun2 Hfree).
    apply Forall_forall. intros o Ho.
    apply list_elem_of_fmap_2, elem_of_app. by right.
Qed.

Lemma history_independent_witness :
  (∀ key, get checksum
            {| ring := [(196, "Z"); (197, "Z"); (203, "a"); (204, "a")];
               sortedKeys := [196; 197; 203; 204];
               replicas := 2 |} key
          = get checksum
              {| ring := [(203, "a"); (204, "a"); (196, "Z"); (197, "Z")];
                 sortedKeys := [196; 197; 203; 204];
                 replicas := 2 |} key)
  ∧ (∀ key count,
       getN checksum
         {| ring := [(196, "Z"); (197, "Z"); (203, "a"); (204, "a")];
            sortedKeys := [196; 197; 203; 204];
            replicas := 2 |} key count
       = getN checksum
           {| ring := [(203, "a"); (204, "a"); (196, "Z"); (197, "Z")];
              sortedKeys := [196; 197; 203; 204];
              replicas := 2 |} key count)
  ∧ size {| ring := [(196, "Z"); (197, "Z"); (203, "a"); (204, "a")];
            sortedKeys := [196; 197; 203; 204];
            replicas := 2 |}
    = size {| ring := [(203, "a"); (204, "a"); (196, "Z"); (197, "Z")];
              sortedKeys := [196; 197; 203; 204];
              replicas := 2 |}
  ∧ nodes {| ring := [(196, "Z"); (197, "Z"); (203, "a"); (204, "a")];
             sortedKeys := [196; 197; 203; 204];
             replicas := 2 |}
    ≡ₚ nodes {| ring := [(203, "a"); (204, "a"); (196, "Z"); (197, "Z")];
                sortedKeys := [196; 197; 203; 204];
                replicas := 2 |}.
Proof.
  apply (history_independent checksum {| opt_replicas := Some 2 |}
           [OpAdd "Z"; OpAdd "a"] [OpAdd "a"; OpAdd "Z"]).
  - reflexivity.
  - reflexivity.
  - intros n1 n2 p Hn1 Hn2 Hp1 Hp2.
    apply list_elem_of_In in Hn1, Hn2. simpl in Hn1, Hn2.
    destruct Hn1 as [<-|[<-|[<-|[<-|[]]]]], Hn2 as [<-|[<-|[<-|[<-|[]]]]];
      try reflexivity;
      vm_compute in Hp1, Hp2;
      apply list_elem_of_In in Hp1, Hp2; simpl in Hp1, Hp2;
      destruct Hp1 as [<-|[<-|[]]], Hp2 as [Hp2|[Hp2|[]]]; discriminate Hp2.
  - intros n. simpl. rewrite !elem_of_cons, elem_of_nil. tauto.
Defined.

(** X13. When no two nodes used share a position and [replicas >= 1],
    [nodes] holds exactly the nodes present (added, and not removed since),
    and every position of a node present is in the entry map, owned by that
    node. *)
Theorem nodes_are_present (hash32 : string → Z) (options : HashOrbitOptions)
    (ops : list op) (st : HashOrbit) :
  run_ops hash32 (constructor options) ops = Ok st →
  collision_free hash32 (replicas st) (op_node <$> ops) →
  1 ≤ replicas st →
  (∀ n, n ∈ nodes st ↔ n ∈ present_after [] ops)
  ∧ (∀ n p, n ∈ present_after [] ops →
            p ∈ positions hash32 (replicas st) n →
            JsMap.get p (ring st) = Some n).
Proof.
  intros Hrun Hfree Hr.
  pose proof (reachable_inv hash32 _ _ _ Hrun) as Hinv.
  assert (placed hash32 (replicas st) (present_after [] ops) (ring st))
    as Hplaced.
  { apply (reachable_placed hash32 options ops st _ Hrun Hfree).
    apply Forall_forall. intros o Ho. by apply list_elem_of_fmap_2. }
  split.
  - intros n. unfold nodes, getUniqueNodes. rewrite elem_of_of_list. split.
    + intros [p Hp]%values_get; [| by destruct Hinv].
      by apply Hplaced in Hp as [? _].
    + intros Hn. apply (get_Some_values (hash32 (virtual_key n 0))).
      apply Hplaced. split; [done | by apply positions_nonempty].
  - intros n p Hn Hp. by apply Hplaced.
Qed.

Lemma nodes_are_present_witness :
  (∀ n, n ∈ nodes {| ring := [(196, "Z"); (197, "Z")];
                     sortedKeys := [196; 197];
                     replicas := 2 |}
        ↔ n ∈ present_after [] [OpAdd "Z"; OpAdd "a"; OpRemove "a"])
  ∧ (∀ n p, n ∈ present_after [] [OpAdd "Z"; OpAdd "a"; OpRemove "a"] →
            p ∈ positions checksum 2 n →
            JsMap.get p [(196, "Z"); (197, "Z")] = Some n).
Proof.
  apply (nodes_are_present checksum {| opt_replicas := Some 2 |}
           [OpAdd "Z"; OpAdd "a"; OpRemove "a"]
           {| ring := [(196, "Z"); (197, "Z")];
              sortedKeys := [196; 197];
              replicas := 2 |}).
  - reflexivity.
  - intros n1 n2 p Hn1 Hn2 Hp1 Hp2.
    apply list_elem_of_In in Hn1, Hn2. simpl in Hn1, Hn2.
    destruct Hn1 as [<-|[<-|[<-|[]]]], Hn2 as [<-|[<-|[<-|[]]]];
      try reflexivity;
      vm_compute in Hp1, Hp2;
      apply list_elem_of_In in Hp1, Hp2; simpl in Hp1, Hp2;
      destruct Hp1 as [<-|[<-|[]]], Hp2 as [Hp2|[Hp2|[]]]; discriminate Hp2.
  - simpl. lia.
Defined.

(** ** [fromJSON] *)

Lemma add_all_Ok_valid (hash32 : string → Z) st ns st' :
  add_all hash32 st ns = Ok st' → Forall valid_identifier ns.
Proof.
  revert st. induction ns as [|n ns IH]; intros st; simpl; [done |].
  destruct (add hash32 st n) as [st1|] eqn:Hadd; simpl; [| done].
  intros Hrest. constructor; [by apply add_Ok in Hadd as [? _] | by eapply IH].
Qed.

Lemma add_all_values (hash32 : string → Z) st ns st' x :
  add_all hash32 st ns = Ok st' →
  x ∈ JsMap.values (ring st') → x ∈ JsMap.values (ring st) ∨ x ∈ ns.
Proof.
  revert st. induction ns as [|n ns IH]; intros st; simpl.
  - intros [= <-]. by left.
  - destruct (add hash32 st n) as [st1|] eqn:Hadd; simpl; [| done].
    intros Hrest Hx. destruct (IH st1 Hrest Hx) as [Hx1|Hx1].
    + apply add_Ok in Hadd as [_ ->]. simpl in Hx1.
      apply values_add_loop in Hx1 as [->|?]; [right; left | by left].
    + right. by right.
Qed.

Lemma add_all_throw (hash32 : string → Z) st good bad rest msg :
  Forall valid_identifier good →
  validateIdentifier bad "Node identifier" = Throw msg →
  add_all hash32 st (good ++ bad :: rest) = Throw msg.
Proof.
  intros Hgood Hbad. revert st.
  induction Hgood as [|n good Hn Hgood IH]; intros st; simpl.
  - unfold add. by rewrite Hbad.
  - rewrite add_valid by done. simpl. apply IH.
Qed.

(** X14. [fromJSON] returns a ring exactly when every node of [json.nodes]
    is a valid identifier; the ring is the one [add] of these nodes, in
    order, builds from a fresh ring with [json.replicas], so its [replicas]
    is [json.replicas] and its [nodes] are among [json.nodes]. *)
Theorem fromJSON_accepts (hash32 : string → Z) (json : RingJSON) :
  (Forall valid_identifier (json_nodes json)
   ↔ ∃ R, fromJSON hash32 json = Ok R)
  ∧ ∀ R, fromJSON hash32 json = Ok R →
      run_ops hash32
        (constructor {| opt_replicas := Some (json_replicas json) |})
        (OpAdd <$> json_nodes json) = Ok R
      ∧ replicas R = json_replicas json
      ∧ ∀ n, n ∈ nodes R → n ∈ json_nodes json.
Proof.
  unfold fromJSON. split.
  - split; [apply add_all_valid |]. intros [R HR]. by eapply add_all_Ok_valid.
  - intros R HR. split_and!.
    + by rewrite <-add_all_run_ops.
    + rewrite add_all_run_ops in HR.
      by rewrite (run_ops_replicas hash32 _ _ _ HR).
    + intros n Hn. apply (proj1 (elem_of_of_list _ _)) in Hn.
      destruct (add_all_values hash32 _ _ _ n HR Hn) as [Hnil|?]; [| done].
      by apply elem_of_nil in Hnil.
Qed.

(** X15. [fromJSON] throws the error of the first node of [json.nodes]
    that is not a valid identifier: the nodes before it are added to a ring
    that is then dropped, the nodes after it are not looked at. *)
Theorem fromJSON_rejects (hash32 : string → Z) (json : RingJSON)
    (good rest : list string) (bad msg : string) :
  json_nodes json = good ++ bad :: rest →
  Forall valid_identifier good →
  validateIdentifier bad "Node identifier" = Throw msg →
  fromJSON hash32 json = Throw msg
  ∧ (msg = empty_message "Node identifier"
     ∨ msg = too_long_message "Node identifier").
Proof.
  intros Hnodes Hgood Hbad. split.
  - unfold fromJSON. rewrite Hnodes. by apply add_all_throw.
  - unfold validateIdentifier in Hbad.
    case_decide; [left; congruence |].
    case_bool_decide; [right; congruence | done].
Qed.

Lemma fromJSON_rejects_witness :
  fromJSON checksum {| json_nodes := ["a"; ""; "b"]; json_replicas := 2 |}
    = Throw "Node identifier cannot be empty"
  ∧ ("Node identifier cannot be empty" = empty_message "Node identifier"
     ∨ "Node identifier cannot be empty"
       = too_long_message "Node identifier").
Proof.
  apply (fromJSON_rejects checksum
           {| json_nodes := ["a"; ""; "b"]; json_replicas := 2 |}
           ["a"] ["b"] "").
  - reflexivity.
  - constructor; [split; [done | simpl; lia] | constructor].
  - reflexivity.
Defined.

(** X16. In every state of a ring, [fromJSON(toJSON())] returns a ring (it
    does not throw) with the same [replicas], whose [nodes] are among those
    of the original. *)
Theorem fromJSON_toJSON_returns (hash32 : string → Z)
    (options : HashOrbitOptions) (ops : list op) (R : HashOrbit) :
  run_ops hash32 (constructor options) ops = Ok R →
  ∃ R', fromJSON hash32 (toJSON R) = Ok R'
    ∧ replicas R' = replicas R
    ∧ ∀ n, n ∈ nodes R' → n ∈ nodes R.
Proof.
  intros Hinv%reachable_inv.
  assert (Forall valid_identifier (nodes R)) as Hvalid.
  { apply Forall_forall. intros n Hn.
    apply (proj1 (elem_of_of_list _ _)) in Hn.
    destruct Hinv as [_ _ Hv]. rewrite Forall_forall in Hv. auto. }
  unfold fromJSON, toJSON. simpl.
  destruct (add_all_valid hash32
              (constructor {| opt_replicas := Some (replicas R) |})
              (nodes R) Hvalid) as [R' HR'].
  exists R'. split_and!; [done | |].
  - rewrite add_all_run_ops in HR'.
    by rewrite (run_ops_replicas hash32 _ _ _ HR').
  - intros n Hn. apply (proj1 (elem_of_of_list _ _)) in Hn.
    destruct (add_all_values hash32 _ _ _ n HR' Hn) as [Hnil|?]; [| done].
    by apply elem_of_nil in Hnil.
Qed.

Lemma fromJSON_toJSON_returns_witness :
  ∃ R', fromJSON checksum
          (toJSON {| ring := [(204, "a"); (205, "b"); (203, "a")];
                     sortedKeys := [203; 204; 205];
                     replicas := 2 |}) = Ok R'
    ∧ replicas R' = 2
    ∧ ∀ n, n ∈ nodes R' → n ∈ ["a"; "b"].
Proof.
  apply (fromJSON_toJSON_returns checksum {| opt_replicas := Some 2 |}
           [OpAdd "b"; OpAdd "a"]
           {| ring := [(204, "a"); (205, "b"); (203, "a")];
              sortedKeys := [203; 204; 205];
              replicas := 2 |}).
  reflexivity.
Defined.

(** X17. When no two nodes used share a position, [add] of a node that is
    not present followed by [remove] of it leaves a ring that agrees with
    the one before on [get] and [getN] for every key and count, on [size],
    and on [nodes] up to order. *)
Theorem add_remove_restores (hash32 : string → Z)
    (options : HashOrbitOptions) (ops : list op) (st st1 st2 : HashOrbit)
    (node : string) :
  run_ops hash32 (constructor options) ops = Ok st →
  collision_free hash32 (replicas st) (node :: (op_node <$> ops)) →
  node ∉ present_after [] ops →
  add hash32 st node = Ok st1 →
  remove hash32 st1 node = Ok st2 →
  (∀ key, get hash32 st2 key = get hash32 st key)
  ∧ (∀ key count, getN hash32 st2 key count = getN hash32 st key count)
  ∧ size st2 = size st
  ∧ nodes st2 ≡ₚ nodes st.
Proof.
  intros Hrun Hfree Hout Hadd Hrem.
  pose proof (reachable_inv hash32 _ _ _ Hrun) as Hinv.
  pose proof (add_inv hash32 _ _ _ Hinv Hadd) as Hinv1.
  pose proof (remove_inv hash32 _ _ _ Hinv1 Hrem) as Hinv2.
  assert (Forall (λ o, op_node o ∈ node :: (op_node <$> ops)) ops) as Hops.
  { apply Forall_forall. intros o Ho. right. by apply list_elem_of_fmap_2. }
  pose proof (reachable_placed hash32 options ops st _ Hrun Hfree Hops)
    as Hplaced.
  assert (present_after [] ops ⊆ node :: (op_node <$> ops)) as HS.
  { apply present_after_subseteq; [apply list_subseteq_nil | done]. }
  assert (replicas st1 = replicas st) as Hr1
    by (by apply add_Ok in Hadd as [_ ->]).
  pose proof (placed_add hash32 (replicas st) _ Hfree st node st1 _
                eq_refl Hplaced HS ltac:(left) Hadd) as Hplaced1.
  assert (node :: present_after [] ops ⊆ node :: (op_node <$> ops)) as HS1.
  { intros x [->|Hx]%elem_of_cons; [left | by apply HS]. }
  pose proof (placed_remove hash32 (replicas st) _ Hfree st1 node st2 _
                Hinv1 Hr1 Hplaced1 HS1 ltac:(left) Hrem) as Hplaced2.
  apply (placed_same_answers hash32 (replicas st) _ _ st2 st Hinv2 Hinv
           Hplaced2 Hplaced).
  intros n. rewrite list_elem_of_filter, elem_of_cons. split.
  - intros [Hne [?|?]]; done.
  - intros Hn. split; [by intros -> | by right].
Qed.

Lemma add_remove_restores_witness :
  (∀ key, get checksum {| ring := [(196, "Z"); (197, "Z")];
                          sortedKeys := [196; 197];
                          replicas := 2 |} key
          = get checksum {| ring := [(196, "Z"); (197, "Z")];
                            sortedKeys := [196; 197];
                            replicas := 2 |} key)
  ∧ (∀ key count,
       getN checksum {| ring := [(196, "Z"); (197, "Z")];
                        sortedKeys := [196; 197];
                        replicas := 2 |} key count
       = getN checksum {| ring := [(196, "Z"); (197, "Z")];
                          sortedKeys := [196; 197];
                          replicas := 2 |} key count)
  ∧ size {| ring := [(196, "Z"); (197, "Z")];
            sortedKeys := [196; 197];
            replicas := 2 |}
    = size {| ring := [(196, "Z"); (197, "Z")];
              sortedKeys := [196; 197];
              replicas := 2 |}
  ∧ nodes {| ring := [(196, "Z"); (197, "Z")];
             sortedKeys := [196; 197];
             replicas := 2 |}
    ≡ₚ nodes {| ring := [(196, "Z"); (197, "Z")];
                sortedKeys := [196; 197];
                replicas := 2 |}.
Proof.
  apply (add_remove_restores checksum {| opt_replicas := Some 2 |}
           [OpAdd "Z"]
           {| ring := [(196, "Z"); (197, "Z")];
              sortedKeys := [196; 197];
              replicas := 2 |}
           {| ring := [(196, "Z"); (197, "Z"); (203, "a"); (204, "a")];
              sortedKeys := [196; 197; 203; 204];
              replicas := 2 |}
           {| ring := [(196, "Z"); (197, "Z")];
              sortedKeys := [196; 197];
              replicas := 2 |} "a").
  - reflexivity.
  - intros n1 n2 p Hn1 Hn2 Hp1 Hp2.
    apply list_elem_of_In in Hn1, Hn2. simpl in Hn1, Hn2.
    destruct Hn1 as [<-|[<-|[]]], Hn2 as [<-|[<-|[]]];
      try reflexivity;
      vm_compute in Hp1, Hp2;
      apply list_elem_of_In in Hp1, Hp2; simpl in Hp1, Hp2;
      destruct Hp1 as [<-|[<-|[]]], Hp2 as [Hp2|[Hp2|[]]]; discriminate Hp2.
  - simpl. intros [Heq|Hn]%elem_of_cons;
      [discriminate Heq | by apply elem_of_nil in Hn].
  - reflexivity.
  - reflexivity.
Defined.

(** * The callers of the examples *)

(** ** A ring beside a map of node objects *)

Section beside_facts.
Context {V : Type}.
Variable hash32 : string → Z.
Variable idf : V → string.
Implicit Types (r : HashOrbit) (m : list (string * V)).

Lemma beside_new options : beside hash32 idf (constructor options) [].
Proof.
  split; simpl.
  - apply constructor_inv.
  - apply constructor_owned.
  - apply NoDup_nil_2.
  - by intros n ?%elem_of_nil.
  - done.
Qed.

Lemma beside_add r m id v r' :
  beside hash32 idf r m → add hash32 r id = Ok r' → idf v = id →
  beside hash32 idf r' (JsMap.set id v m).
Proof.
  intros [Hinv Hown Hnd Hnodes Hids] Hadd Hid. split.
  - by eapply add_inv.
  - by apply (run_op_owned hash32 r (OpAdd id)).
  - by apply NoDup_keys_set.
  - intros n Hn. rewrite get_set. case_decide; [done |].
    apply Hnodes. apply add_Ok in Hadd as [_ ->]. simpl in Hn.
    by apply values_add_loop in Hn as [->|?].
  - intros k w. rewrite get_set. case_decide; [congruence | apply Hids].
Qed.

Lemma beside_remove r m id r' :
  beside hash32 idf r m → remove hash32 r id = Ok r' →
  beside hash32 idf r' (JsMap.delete id m).
Proof.
  intros [Hinv Hown Hnd Hnodes Hids] Hrem.
  pose proof (remove_inv hash32 _ _ _ Hinv Hrem) as Hinv'. split.
  - done.
  - by apply (run_op_owned hash32 r (OpRemove id)).
  - by apply NoDup_keys_delete.
  - intros n Hn. rewrite get_delete by done.
    apply values_get in Hn as [p Hp]; [| by destruct Hinv'].
    apply remove_Ok in Hrem as [_ ->]. simpl in Hp.
    rewrite get_remove_loop in Hp by by destruct Hinv.
    case_decide as Hpos; [done |].
    rewrite decide_False.
    + apply Hnodes. by eapply get_Some_values.
    + intros ->. by apply Hpos, Hown.
  - intros k w. rewrite get_delete by done.
    case_decide; [done | apply Hids].
Qed.

Lemma beside_update r m id v0 v :
  beside hash32 idf r m → JsMap.get id m = Some v0 → idf v = id →
  beside hash32 idf r (JsMap.set id v m).
Proof.
  intros [Hinv Hown Hnd Hnodes Hids] Hget Hid. split; try done.
  - by apply NoDup_keys_set.
  - intros n Hn. rewrite get_set. case_decide; [done | by apply Hnodes].
  - intros k w. rewrite get_set. case_decide; [congruence | apply Hids].
Qed.

(** Looking up the identifiers of nodes of the ring finds one object for
    each, in order. *)
Lemma omap_get_ids r m (ids : list string) :
  beside hash32 idf r m →
  (∀ id, id ∈ ids → id ∈ JsMap.values (ring r)) →
  idf <$> omap (λ id, JsMap.get id m) ids = ids.
Proof.
  intros [_ _ _ Hnodes Hids]. induction ids as [|id ids IH]; intros Hin.
  - done.
  - csimpl. destruct (Hnodes id) as [v Hv]; [apply Hin; left |].
    rewrite Hv. csimpl. rewrite (Hids id v Hv). f_equal.
    apply IH. intros id' Hid'. apply Hin. by right.
Qed.
End beside_facts.

(** ** The sticky load balancer *)

Lemma first_healthy_Some l s :
  first_healthy l = Some s → healthy s = true ∧ s ∈ l.
Proof.
  induction l as [|s' l IH]; simpl; [done |].
  destruct (healthy s') eqn:Hs'.
  - intros [= <-]. split; [done | left].
  - intros [? ?]%IH. split; [done | by right].
Qed.

Lemma first_healthy_None l :
  first_healthy l = None ↔ ∀ s, s ∈ l → healthy s = false.
Proof.
  induction l as [|s' l IH]; simpl.
  - split; [by intros _ s ?%elem_of_nil | done].
  - destruct (healthy s') eqn:Hs'.
    + split; [done |]. intros Hall. specialize (Hall s'). rewrite Hs' in Hall.
      by discriminate Hall; left.
    + rewrite IH. split.
      * intros Hall s [->|?]%elem_of_cons; auto.
      * intros Hall s Hs. apply Hall. by right.
Qed.

Lemma primary_server_Some lb o s :
  primary_server lb o = Some s →
  healthy s = true
  ∧ ∃ id, o = Some id ∧ id ≠ "" ∧ JsMap.get id (lb_servers lb) = Some s.
Proof.
  unfold primary_server. destruct o as [id|]; [| done].
  case_bool_decide as Hid; [| done].
  destruct (JsMap.get id (lb_servers lb)) as [s'|] eqn:Hs'; [| done].
  destruct (healthy s') eqn:Hh; [| done].
  intros [= <-]. split; [done |]. by exists id.
Qed.

Lemma run_lb_ops_beside (hash32 : string → Z) lb ops lb' :
  beside hash32 server_id (lb_ring lb) (lb_servers lb) →
  run_lb_ops hash32 lb ops = Ok lb' →
  beside hash32 server_id (lb_ring lb') (lb_servers lb').
Proof.
  revert lb. induction ops as [|o ops IH]; intros lb Hb; simpl.
  - by intros [= <-].
  - destruct (run_lb_op hash32 lb o) as [lb1|] eqn:H1; simpl; [| done].
    apply IH. destruct o as [id|id|id]; simpl in H1.
    + unfold addServer in H1.
      destruct (add hash32 (lb_ring lb) id) as [r|] eqn:Hadd; [| done].
      injection H1 as <-. simpl. by eapply beside_add.
    + unfold removeServer in H1.
      destruct (remove hash32 (lb_ring lb) id) as [r|] eqn:Hrem; [| done].
      injection H1 as <-. simpl. by eapply beside_remove.
    + injection H1 as <-. unfold markServerUnhealthy.
      destruct (JsMap.get id (lb_servers lb)) as [s|] eqn:Hs; [| done].
      simpl. eapply beside_update; [done | done |].
      simpl. by destruct Hb as [_ _ _ _ Hids]; apply Hids.
Qed.

(** X18. Whatever the state of the load balancer, a server
    [getServerForSession] returns is healthy and is one of the servers of
    the map. *)
Theorem routed_server_healthy (hash32 : string → Z) (lb : StickyLoadBalancer)
    (sessionId : string) (s : AppServer) :
  getServerForSession hash32 lb sessionId = Ok (Some s) →
  healthy s = true ∧ s ∈ JsMap.values (lb_servers lb).
Proof.
  unfold getServerForSession.
  destruct (get hash32 (lb_ring lb) sessionId) as [o|]; simpl; [| done].
  destruct (primary_server lb o) as [s'|] eqn:Hp.
  - intros [= <-].
    apply primary_server_Some in Hp as (Hh & id & _ & _ & Hget).
    split; [done | by eapply get_Some_values].
  - intros [= Hf]. by apply first_healthy_Some.
Qed.

Lemma routed_server_healthy_witness :
  healthy {| server_id := "b"; healthy := true; activeConnections := 0 |}
    = true
  ∧ {| server_id := "b"; healthy := true; activeConnections := 0 |}
    ∈ JsMap.values
        [("a", {| server_id := "a"; healthy := false;
                  activeConnections := 0 |});
         ("b", {| server_id := "b"; healthy := true;
                  activeConnections := 0 |})].
Proof.
  apply (routed_server_healthy checksum
           {| lb_ring := {| ring := [(203, "a"); (204, "b"); (205, "b")];
                            sortedKeys := [203; 204; 205];
                            replicas := 2 |};
              lb_servers :=
                [("a", {| server_id := "a"; healthy := false;
                          activeConnections := 0 |});
                 ("b", {| server_id := "b"; healthy := true;
                          activeConnections := 0 |})] |}
           "zz").
  reflexivity.
Defined.

(** X19. For a valid session identifier [getServerForSession] does not
    throw, whatever the state of the load balancer, and it returns
    [undefined] exactly when no server of the map is healthy. *)
Theorem routed_unless_all_unhealthy (hash32 : string → Z)
    (lb : StickyLoadBalancer) (sessionId : string) :
  valid_identifier sessionId →
  (∃ r, getServerForSession hash32 lb sessionId = Ok r)
  ∧ (getServerForSession hash32 lb sessionId = Ok None
     ↔ ∀ s, s ∈ JsMap.values (lb_servers lb) → healthy s = false).
Proof.
  intros Hv. unfold getServerForSession. rewrite get_valid by done.
  set (o := if decide (JsMap.size (ring (lb_ring lb)) = 0%nat) then None
            else node_at (lb_ring lb)
                   (wrap (lb_ring lb)
                      (binarySearch (lb_ring lb) (hash32 sessionId)))).
  assert ((if decide (JsMap.size (ring (lb_ring lb)) = 0%nat)
           then Ok None
           else Ok (node_at (lb_ring lb)
                      (wrap (lb_ring lb)
                         (binarySearch (lb_ring lb) (hash32 sessionId)))))
          = Ok o) as -> by (subst o; by case_decide).
  simpl. destruct (primary_server lb o) as [s|] eqn:Hp.
  - split; [by eexists |]. split; [done |]. intros Hall.
    apply primary_server_Some in Hp as (Hh & id & _ & _ & Hget).
    rewrite (Hall s) in Hh; [done | by eapply get_Some_values].
  - split; [by eexists |]. split.
    + intros [= Hf]. by apply first_healthy_None.
    + intros Hall. f_equal. by apply first_healthy_None.
Qed.

Lemma routed_unless_all_unhealthy_witness :
  (∃ r, getServerForSession checksum
          {| lb_ring := {| ring := [(203, "a"); (204, "a")];
                           sortedKeys := [203; 204];
                           replicas := 2 |};
             lb_servers :=
               [("a", {| server_id := "a"; healthy := false;
                         activeConnections := 0 |})] |} "zz" = Ok r)
  ∧ (getServerForSession checksum
       {| lb_ring := {| ring := [(203, "a"); (204, "a")];
                        sortedKeys := [203; 204];
                        replicas := 2 |};
          lb_servers :=
            [("a", {| server_id := "a"; healthy := false;
                      activeConnections := 0 |})] |} "zz" = Ok None
     ↔ ∀ s, s ∈ JsMap.values
                  [("a", {| server_id := "a"; healthy := false;
                            activeConnections := 0 |})] →
            healthy s = false).
Proof.
  apply (routed_unless_all_unhealthy checksum).
  split; [done | simpl; lia].
Defined.

(** X20. In every state of a load balancer the server the ring names for a
    session is in the map under that name, and [getServerForSession]
    returns it when it is healthy. *)
Theorem routed_to_primary (hash32 : string → Z) (replicas : option Z)
    (ops : list lb_op) (lb : StickyLoadBalancer) (sessionId id : string) :
  run_lb_ops hash32 (newStickyLoadBalancer replicas) ops = Ok lb →
  get hash32 (lb_ring lb) sessionId = Ok (Some id) →
  ∃ s, JsMap.get id (lb_servers lb) = Some s
    ∧ server_id s = id
    ∧ (healthy s = true →
       getServerForSession hash32 lb sessionId = Ok (Some s)).
Proof.
  intros Hrun Hget.
  assert (beside hash32 server_id (lb_ring lb) (lb_servers lb)) as Hb.
  { eapply run_lb_ops_beside; [| done]. apply beside_new. }
  pose proof Hb as [Hinv _ _ Hnodes Hids].
  pose proof (get_Some_value hash32 _ _ _ Hget) as Hval.
  destruct (Hnodes id Hval) as [s Hs]. exists s.
  split_and!; [done | by apply Hids |].
  intros Hh. unfold getServerForSession. rewrite Hget. simpl.
  rewrite bool_decide_true.
  - by rewrite Hs, Hh.
  - destruct Hinv as [_ _ Hv]. rewrite Forall_forall in Hv.
    by destruct (Hv id Hval).
Qed.

Lemma routed_to_primary_witness :
  ∃ s, JsMap.get "b"
         [("a", {| server_id := "a"; healthy := false;
                   activeConnections := 0 |});
          ("b", {| server_id := "b"; healthy := true;
                   activeConnections := 0 |})] = Some s
    ∧ server_id s = "b"
    ∧ (healthy s = true →
       getServerForSession checksum
         {| lb_ring := {| ring := [(203, "a"); (204, "b"); (205, "b")];
                          sortedKeys := [203; 204; 205];
                          replicas := 2 |};
            lb_servers :=
              [("a", {| server_id := "a"; healthy := false;
                        activeConnections := 0 |});
               ("b", {| server_id := "b"; healthy := true;
                        activeConnections := 0 |})] |} "b:1"
       = Ok (Some s)).
Proof.
  apply (routed_to_primary checksum (Some 2)
           [LbAdd "a"; LbAdd "b"; LbMarkUnhealthy "a"]
           {| lb_ring := {| ring := [(203, "a"); (204, "b"); (205, "b")];
                            sortedKeys := [203; 204; 205];
                            replicas := 2 |};
              lb_servers :=
                [("a", {| server_id := "a"; healthy := false;
                          activeConnections := 0 |});
                 ("b", {| server_id := "b"; healthy := true;
                          activeConnections := 0 |})] |} "b:1" "b").
  - reflexivity.
  - reflexivity.
Defined.

(** ** The replicated cache *)

Lemma run_rc_ops_beside (hash32 : string → Z) rc ops rc' :
  beside hash32 cache_id (rc_ring rc) (rc_nodes rc) →
  run_rc_ops hash32 rc ops = Ok rc' →
  beside hash32 cache_id (rc_ring rc') (rc_nodes rc')
  ∧ replicationFactor rc' = replicationFactor rc.
Proof.
  revert rc. induction ops as [|o ops IH]; intros rc Hb; simpl.
  - by intros [= <-].
  - destruct (run_rc_op hash32 rc o) as [rc1|] eqn:H1; simpl; [| done].
    intros Hrest.
    assert (beside hash32 cache_id (rc_ring rc1) (rc_nodes rc1)
            ∧ replicationFactor rc1 = replicationFactor rc) as [Hb1 Hf1].
    { destruct o as [id|id|id]; simpl in H1.
      - unfold addNode in H1.
        destruct (add hash32 (rc_ring rc) id) as [r|] eqn:Hadd; [| done].
        injection H1 as <-. simpl. split; [by eapply beside_add | done].
      - unfold removeNode in H1.
        destruct (remove hash32 (rc_ring rc) id) as [r|] eqn:Hrem; [| done].
        injection H1 as <-. simpl. split; [by eapply beside_remove | done].
      - injection H1 as <-. unfold markNodeUnavailable.
        destruct (JsMap.get id (rc_nodes rc)) as [s|] eqn:Hs; [| done].
        simpl. split; [| done]. eapply beside_update; [done | done |].
        simpl. by destruct Hb as [_ _ _ _ Hids]; apply Hids. }
    destruct (IH rc1 Hb1 Hrest) as [Hb' Hf']. split; [done | congruence].
Qed.

(** X21. In every state of a replicated cache, [getReplicaNodes(key)]
    returns one cache node for each identifier of
    [ring.getN(key, replicationFactor)], in the same order, each node
    carrying its identifier; so the replicas of a key are distinct nodes,
    and [replicationFactor] is the one given to the constructor. *)
Theorem replica_nodes_follow_getN (hash32 : string → Z)
    (factor replicas : option Z) (ops : list rc_op) (rc : ReplicatedCache)
    (key : string) (ids : list string) :
  run_rc_ops hash32 (newReplicatedCache factor replicas) ops = Ok rc →
  getN hash32 (rc_ring rc) key (replicationFactor rc) = Ok ids →
  replicationFactor rc = default 2 factor
  ∧ ∃ nodes, getReplicaNodes hash32 rc key = Ok nodes
      ∧ cache_id <$> nodes = ids
      ∧ NoDup (cache_id <$> nodes)
      ∧ (∀ node, node ∈ nodes →
           JsMap.get (cache_id node) (rc_nodes rc) = Some node).
Proof.
  intros Hrun Hids.
  destruct (run_rc_ops_beside hash32 (newReplicatedCache factor replicas)
              ops rc (beside_new hash32 cache_id _) Hrun) as [Hb Hf].
  split; [done |].
  destruct (getN_Ok_values hash32 _ _ _ _ Hids) as [Hnd Hval].
  unfold getReplicaNodes. rewrite Hids. simpl.
  eexists. split; [done |].
  rewrite (omap_get_ids hash32 cache_id _ _ ids Hb Hval).
  split_and!; [done | done |].
  intros node [id [_ Hget]]%list_elem_of_omap.
  destruct Hb as [_ _ _ _ Hidf]. by rewrite (Hidf id node Hget).
Qed.

Lemma replica_nodes_follow_getN_witness :
  2 = default 2 None
  ∧ ∃ nodes,
      getReplicaNodes checksum
        {| rc_ring := {| ring := [(203, "a"); (204, "b"); (205, "b")];
                         sortedKeys := [203; 204; 205];
                         replicas := 2 |};
           rc_nodes :=
             [("a", {| cache_id := "a"; available := false; store := [] |});
              ("b", {| cache_id := "b"; available := true; store := [] |})];
           replicationFactor := 2 |} "b:1" = Ok nodes
      ∧ cache_id <$> nodes = ["b"; "a"]
      ∧ NoDup (cache_id <$> nodes)
      ∧ (∀ node, node ∈ nodes →
           JsMap.get (cache_id node)
             [("a", {| cache_id := "a"; available := false; store := [] |});
              ("b", {| cache_id := "b"; available := true; store := [] |})]
           = Some node).
Proof.
  apply (replica_nodes_follow_getN checksum None (Some 2)
           [RcAdd "a"; RcAdd "b"; RcMarkUnavailable "a"]
           {| rc_ring := {| ring := [(203, "a"); (204, "b"); (205, "b")];
                            sortedKeys := [203; 204; 205];
                            replicas := 2 |};
              rc_nodes :=
                [("a", {| cache_id := "a"; available := false;
                          store := [] |});
                 ("b", {| cache_id := "b"; available := true;
                          store := [] |})];
              replicationFactor := 2 |} "b:1" ["b"; "a"]).
  - reflexivity.
  - reflexivity.
Defined.

(** * More on [getN] and [size] *)

(** X22. In every state of a ring and for a valid key, [getN] returns the
    empty array exactly when the ring has no position or [count <= 0]. *)
Theorem getN_empty_iff (hash32 : string → Z) (options : HashOrbitOptions)
    (ops : list op) (st : HashOrbit) (key : string) (count : Z) :
  run_ops hash32 (constructor options) ops = Ok st →
  valid_identifier key →
  getN hash32 st key count = Ok []
  ↔ JsMap.size (ring st) = 0%nat ∨ count ≤ 0.
Proof.
  intros Hinv%reachable_inv Hkey. rewrite getN_valid by done.
  case_decide as Hc; [done |]. split; [| done].
  intros [= Hnil]. exfalso.
  assert (JsMap.size (ring st) ≠ 0%nat) as Hsize by tauto.
  pose proof (inv_nonempty st Hinv Hsize) as Hpos.
  pose proof (wrap_lt st (binarySearch st (hash32 key)) Hpos) as Hlt.
  destruct (node_at_Some st _ Hinv Hlt) as (p & node & _ & _ & Hat & Hne & _).
  destruct (length (sortedKeys st)) as [|n] eqn:Hlen; [lia |].
  simpl in Hnil. rewrite bool_decide_true in Hnil by lia.
  unfold getN_visit in Hnil at 1. rewrite Hat in Hnil.
  rewrite bool_decide_true in Hnil by done. simpl in Hnil.
  destruct (getN_loop_prefix st count n
              (S (wrap st (binarySearch st (hash32 key))))
              (JsSet.add node [], [node])) as [ext Hext].
  rewrite Hext in Hnil. done.
Qed.

Lemma getN_empty_iff_witness :
  getN checksum {| ring := [(204, "a"); (205, "b"); (203, "a")];
                   sortedKeys := [203; 204; 205];
                   replicas := 2 |} "b:1" 0 = Ok []
  ↔ JsMap.size [(204, "a"); (205, "b"); (203, "a")] = 0%nat ∨ 0 ≤ 0.
Proof.
  apply (getN_empty_iff checksum {| opt_replicas := Some 2 |}
           [OpAdd "b"; OpAdd "a"]
           {| ring := [(204, "a"); (205, "b"); (203, "a")];
              sortedKeys := [203; 204; 205];
              replicas := 2 |} "b:1" 0).
  - reflexivity.
  - split; [done | simpl; lia].
Defined.

Lemma placed_nodes (hash32 : string → Z) (st : HashOrbit) (S : list string) :
  ring_inv st → 1 ≤ replicas st →
  placed hash32 (replicas st) S (ring st) →
  ∀ n, n ∈ nodes st ↔ n ∈ S.
Proof.
  intros Hinv Hr Hplaced n.
  unfold nodes, getUniqueNodes. rewrite elem_of_of_list. split.
  - intros [p Hp]%values_get; [| by destruct Hinv].
    by apply Hplaced in Hp as [? _].
  - intros Hn. apply (get_Some_values (hash32 (virtual_key n 0))).
    apply Hplaced. split; [done | by apply positions_nonempty].
Qed.

(** X23. When no two nodes used share a position and [replicas >= 1],
    [add] of a node that is not present raises [size] by one and adds
    exactly that node to [nodes]. *)
Theorem add_new_grows (hash32 : string → Z) (options : HashOrbitOptions)
    (ops : list op) (st st' : HashOrbit) (node : string) :
  run_ops hash32 (constructor options) ops = Ok st →
  collision_free hash32 (replicas st) (node :: (op_node <$> ops)) →
  1 ≤ replicas st →
  node ∉ present_after [] ops →
  add hash32 st node = Ok st' →
  size st' = S (size st) ∧ nodes st' ≡ₚ node :: nodes st.
Proof.
  intros Hrun Hfree Hr Hout Hadd.
  pose proof (reachable_inv hash32 _ _ _ Hrun) as Hinv.
  pose proof (add_inv hash32 _ _ _ Hinv Hadd) as Hinv'.
  assert (Forall (λ o, op_node o ∈ node :: (op_node <$> ops)) ops) as Hops.
  { apply Forall_forall. intros o Ho. right. by apply list_elem_of_fmap_2. }
  pose proof (reachable_placed hash32 options ops st _ Hrun Hfree Hops)
    as Hplaced.
  assert (present_after [] ops ⊆ node :: (op_node <$> ops)) as HS.
  { apply present_after_subseteq; [apply list_subseteq_nil | done]. }
  assert (replicas st' = replicas st) as Hr'
    by (by apply add_Ok in Hadd as [_ ->]).
  pose proof (placed_add hash32 (replicas st) _ Hfree st node st' _
                eq_refl Hplaced HS ltac:(left) Hadd) as Hplaced'.
  rewrite <-Hr' in Hplaced'.
  assert (nodes st' ≡ₚ node :: nodes st) as Hperm.
  { apply NoDup_Permutation.
    - apply NoDup_of_list.
    - apply NoDup_cons. split; [| apply NoDup_of_list].
      by rewrite (placed_nodes hash32 st _ Hinv Hr Hplaced).
    - intros n. rewrite (placed_nodes hash32 st' _ Hinv' ltac:(lia) Hplaced').
      rewrite !elem_of_cons.
      by rewrite (placed_nodes hash32 st _ Hinv Hr Hplaced). }
  split; [| done]. unfold size, JsSet.size. fold (nodes st') (nodes st).
  by rewrite Hperm.
Qed.

Lemma add_new_grows_witness :
  size {| ring := [(196, "Z"); (197, "Z"); (203, "a"); (204, "a")];
          sortedKeys := [196; 197; 203; 204];
          replicas := 2 |}
  = S (size {| ring := [(196, "Z"); (197, "Z")];
               sortedKeys := [196; 197];
               replicas := 2 |})
  ∧ nodes {| ring := [(196, "Z"); (197, "Z"); (203, "a"); (204, "a")];
             sortedKeys := [196; 197; 203; 204];
             replicas := 2 |}
    ≡ₚ "a" :: nodes {| ring := [(196, "Z"); (197, "Z")];
                       sortedKeys := [196; 197];
                       replicas := 2 |}.
Proof.
  apply (add_new_grows checksum {| opt_replicas := Some 2 |} [OpAdd "Z"]).
  - reflexivity.
  - intros n1 n2 p Hn1 Hn2 Hp1 Hp2.
    apply list_elem_of_In in Hn1, Hn2. simpl in Hn1, Hn2.
    destruct Hn1 as [<-|[<-|[]]], Hn2 as [<-|[<-|[]]];
      try reflexivity;
      vm_compute in Hp1, Hp2;
      apply list_elem_of_In in Hp1, Hp2; simpl in Hp1, Hp2;
      destruct Hp1 as [<-|[<-|[]]], Hp2 as [Hp2|[Hp2|[]]]; discriminate Hp2.
  - simpl. lia.
  - simpl. intros [Heq|Hn]%elem_of_cons;
      [discriminate Heq | by apply elem_of_nil in Hn].
  - reflexivity.
Defined.

(** X24. When no two nodes used share a position and [replicas >= 1],
    [remove] of a node that is present lowers [size] by one and takes
    exactly that node out of [nodes]. *)
Theorem remove_present_shrinks (hash32 : string → Z)
    (options : HashOrbitOptions) (ops : list op) (st st' : HashOrbit)
    (node : string) :
  run_ops hash32 (constructor options) ops = Ok st →
  collision_free hash32 (replicas st) (op_node <$> ops) →
  1 ≤ replicas st →
  node ∈ present_after [] ops →
  remove hash32 st node = Ok st' →
  size st = S (size st') ∧ nodes st ≡ₚ node :: nodes st'.
Proof.
  intros Hrun Hfree Hr Hin Hrem.
  pose proof (reachable_inv hash32 _ _ _ Hrun) as Hinv.
  pose proof (remove_inv hash32 _ _ _ Hinv Hrem) as Hinv'.
  assert (Forall (λ o, op_node o ∈ op_node <$> ops) ops) as Hops.
  { apply Forall_forall. intros o Ho. by apply list_elem_of_fmap_2. }
  pose proof (reachable_placed hash32 options ops st _ Hrun Hfree Hops)
    as Hplaced.
  assert (present_after [] ops ⊆ op_node <$> ops) as HS.
  { apply present_after_subseteq; [apply list_subseteq_nil | done]. }
  assert (replicas st' = replicas st) as Hr'
    by (by apply remove_Ok in Hrem as [_ ->]).
  pose proof (placed_remove hash32 (replicas st) _ Hfree st node st' _
                Hinv eq_refl Hplaced HS (HS node Hin) Hrem) as Hplaced'.
  rewrite <-Hr' in Hplaced'.
  assert (nodes st ≡ₚ node :: nodes st') as Hperm.
  { apply NoDup_Permutation.
    - apply NoDup_of_list.
    - apply NoDup_cons. split; [| apply NoDup_of_list].
      rewrite (placed_nodes hash32 st' _ Hinv' ltac:(lia) Hplaced').
      rewrite list_elem_of_filter. by intros [? _].
    - intros n. rewrite (placed_nodes hash32 st _ Hinv Hr Hplaced).
      rewrite elem_of_cons.
      rewrite (placed_nodes hash32 st' _ Hinv' ltac:(lia) Hplaced').
      rewrite list_elem_of_filter. split.
      + intros Hn. destruct (decide (n = node)) as [->|Hne]; [by left |].
        by right.
      + intros [->|[_ ?]]; done. }
  split; [| done]. unfold size, JsSet.size. fold (nodes st') (nodes st).
  by rewrite Hperm.
Qed.

Lemma remove_present_shrinks_witness :
  size {| ring := [(196, "Z"); (197, "Z"); (203, "a"); (204, "a")];
          sortedKeys := [196; 197; 203; 204];
          replicas := 2 |}
  = S (size {| ring := [(203, "a"); (204, "a")];
               sortedKeys := [203; 204];
               replicas := 2 |})
  ∧ nodes {| ring := [(196, "Z"); (197, "Z"); (203, "a"); (204, "a")];
             sortedKeys := [196; 197; 203; 204];
             replicas := 2 |}
    ≡ₚ "Z" :: nodes {| ring := [(203, "a"); (204, "a")];
                       sortedKeys := [203; 204];
                       replicas := 2 |}.
Proof.
  apply (remove_present_shrinks checksum {| opt_replicas := Some 2 |}
           [OpAdd "Z"; OpAdd "a"]).
  - reflexivity.
  - intros n1 n2 p Hn1 Hn2 Hp1 Hp2.
    apply list_elem_of_In in Hn1, Hn2. simpl in Hn1, Hn2.
    destruct Hn1 as [<-|[<-|[]]], Hn2 as [<-|[<-|[]]];
      try reflexivity;
      vm_compute in Hp1, Hp2;
      apply list_elem_of_In in Hp1, Hp2; simpl in Hp1, Hp2;
      destruct Hp1 as [<-|[<-|[]]], Hp2 as [Hp2|[Hp2|[]]]; discriminate Hp2.
  - simpl. lia.
  - simpl. right. left.
  - reflexivity.
Defined.
